(** * The MCP test client and the tools/call dispatcher, embedded in Rocq

    Sources embedded here:
    - [tests/helpers/mcp_client.ts]: class [MCPTestClient] (the correlation
      client: [start], [processOutputBuffer], [sendRequest], [cleanup]);
    - [src/server.ts]: the handlers [listPodsHandler], [getPodHandler],
      [listNodesHandler] and the ["tools/call"] request handler;
    - the second server, which registers its tools with [server.tool]: the
      input shapes and the callbacks.

    JavaScript strings are sequences of UTF-16 code units, written here as
    lists of [N]; the bytes of a chunk read from the child are a list of [N]
    too, and [toString] decodes them.  Numbers that the client counts with ([requestId]) are
    integers far below 2^53, where [++] is exact; they are written as [Z].
    Numbers decoded from JSON text are taken as the rationals they denote. *)

From Stdlib Require Import ZArith NArith QArith_base Ascii String Bool Lia.
From Stdlib Require Import Permutation.
From stdpp Require Import base option list gmap.

Close Scope Q_scope.
Set Warnings "-register-all".
Open Scope list_scope.

(** ** JavaScript strings *)

Module JSString.

Definition jsstring : Type := list N.

(** A string literal of the source, as code units. *)
Definition lit (s : string) : jsstring :=
  List.map N_of_ascii (list_ascii_of_string s).

(** The line terminator ["\n"]. *)
Definition nl : N := 10%N.

(** [s.split(sep)] for a separator of one code unit.  The result is never
    empty: [''.split(sep)] is [['']]. *)
Fixpoint split (sep : N) (s : jsstring) : list jsstring :=
  match s with
  | [] => [[]]
  | c :: s' =>
      if N.eqb c sep then [] :: split sep s'
      else match split sep s' with
           | l :: ls => (c :: l) :: ls
           | [] => [[c]]
           end
  end.

(** White space and line terminators removed by [String.prototype.trim]. *)
Definition is_white (c : N) : bool :=
  (existsb (N.eqb c)
     [9; 10; 11; 12; 13; 32; 160; 5760; 8232; 8233; 8239; 8287; 12288; 65279]
   || (N.leb 8192 c && N.leb c 8202))%N.

Fixpoint trimStart (s : jsstring) : jsstring :=
  match s with
  | c :: s' => if is_white c then trimStart s' else s
  | [] => []
  end.

Definition trimEnd (s : jsstring) : jsstring := rev (trimStart (rev s)).

Definition trim (s : jsstring) : jsstring := trimEnd (trimStart s).

Fixpoint startsWith (p s : jsstring) : bool :=
  match p, s with
  | [], _ => true
  | a :: p', b :: s' => N.eqb a b && startsWith p' s'
  | _ :: _, [] => false
  end.

Definition endsWith (p s : jsstring) : bool := startsWith (rev p) (rev s).

Fixpoint includes (sub s : jsstring) : bool :=
  startsWith sub s ||
  match s with
  | [] => false
  | _ :: s' => includes sub s'
  end.

End JSString.
Import JSString.
Arguments lit : simpl never.

(** ** JavaScript values *)

(** The values the client and the dispatcher handle: what [JSON.parse]
    returns, and [undefined]. *)
Inductive JSValue : Type :=
| JUndefined
| JNull
| JBool (b : bool)
| JNum (q : Q)
| JStr (s : jsstring)
| JArr (items : list JSValue)
| JObj (fields : list (jsstring * JSValue)).

(** [ToBoolean]: what [if (v)], [!v], [v && _] and [v || _] test. *)
Definition truthy (v : JSValue) : bool :=
  match v with
  | JUndefined | JNull => false
  | JBool b => b
  | JNum q => negb (Z.eqb (Qnum q) 0)
  | JStr s => match s with [] => false | _ => true end
  | JArr _ | JObj _ => true
  end.

Fixpoint assoc (key : jsstring) (fields : list (jsstring * JSValue)) : JSValue :=
  match fields with
  | [] => JUndefined
  | (k, v) :: rest => if bool_decide (k = key) then v else assoc key rest
  end.

(** Property read [v.key] where [v] is not [null] or [undefined]; a key that
    is not there reads as [undefined].  The keys read by the source ([id],
    [name], [namespace], [labelSelector]) are no properties of strings,
    numbers, booleans or arrays. *)
Definition get (key : string) (v : JSValue) : JSValue :=
  match v with
  | JObj fields => assoc (lit key) fields
  | _ => JUndefined
  end.

(** The key a value denotes in a [Map<number, _>] whose keys are integers:
    only a number of integral value can be the same value as a key. *)
Definition number_key (v : JSValue) : option Z :=
  match v with
  | JNum q =>
      if Z.eqb (Z.modulo (Qnum q) (Zpos (Qden q))) 0
      then Some (Z.div (Qnum q) (Zpos (Qden q)))
      else None
  | _ => None
  end.

Definition JInt (z : Z) : JSValue := JNum (inject_Z z).

(** ** The frame demultiplexer of [processOutputBuffer] *)

(** [lines.slice(0, lines.length - 1)]: the segments the loop visits. *)
Definition complete_lines (buffer : jsstring) : list jsstring :=
  removelast (split nl buffer).

(** [lines[lines.length - 1]]: the segment kept in [outputBuffer]. *)
Definition incomplete_line (buffer : jsstring) : jsstring :=
  List.last (split nl buffer) [].

Definition newline_free (s : jsstring) : Prop := Forall (fun c => c <> nl) s.

(** The text of a sequence of frames, each followed by its terminator. *)
Definition frame_bytes (frames : list jsstring) : jsstring :=
  List.concat (List.map (fun f => f ++ [nl]) frames).

(** ** The client: [MCPTestClient] and the runtime around it *)

(** The state of a promise. *)
Inductive Outcome : Type :=
| Pending
| Resolved (value : JSValue)
| Rejected (message : jsstring).

(** The closure [sendRequest] stores in [responseHandlers]:
    [(response) => { clearTimeout(timeout); resolve(response); }].  It holds
    the timer and the promise of its call. *)
Record Handler : Type := { h_timeout : nat; h_promise : nat }.

(** The callbacks given to [setTimeout]. *)
Inductive TimerCallback : Type :=
| StartTimeout (p : nat)
| RequestTimeout (id : Z) (method : jsstring) (p : nat)
| CleanupWait (p : nat).

(** What the listeners that [start] puts on a child process hold: the
    startup timer and the promise of that [start] call. *)
Record Listener : Type := { l_timeout : nat; l_promise : nat }.

(** The fields of the class, then the runtime: the processes spawned (with
    their listeners), the timers ([None] once cleared or fired), the promises
    created, and what was written to the standard input of each child. *)
Record MCPTestClient : Type := {
  server : option nat;
  requestId : Z;
  responseHandlers : gmap Z Handler;
  serverReady : bool;
  outputBuffer : jsstring;
  children : list Listener;
  timers : list (option TimerCallback);
  promises : list Outcome;
  stdin : list (nat * jsstring)
}.

Definition new_client : MCPTestClient :=
  {| server := None; requestId := 0; responseHandlers := ∅;
     serverReady := false; outputBuffer := [];
     children := []; timers := []; promises := []; stdin := [] |}.

Definition set_server (v : option nat) (c : MCPTestClient) : MCPTestClient :=
  {| server := v; requestId := requestId c;
     responseHandlers := responseHandlers c; serverReady := serverReady c;
     outputBuffer := outputBuffer c; children := children c;
     timers := timers c; promises := promises c; stdin := stdin c |}.

Definition set_requestId (v : Z) (c : MCPTestClient) : MCPTestClient :=
  {| server := server c; requestId := v;
     responseHandlers := responseHandlers c; serverReady := serverReady c;
     outputBuffer := outputBuffer c; children := children c;
     timers := timers c; promises := promises c; stdin := stdin c |}.

Definition set_responseHandlers (v : gmap Z Handler) (c : MCPTestClient)
  : MCPTestClient :=
  {| server := server c; requestId := requestId c;
     responseHandlers := v; serverReady := serverReady c;
     outputBuffer := outputBuffer c; children := children c;
     timers := timers c; promises := promises c; stdin := stdin c |}.

Definition set_serverReady (v : bool) (c : MCPTestClient) : MCPTestClient :=
  {| server := server c; requestId := requestId c;
     responseHandlers := responseHandlers c; serverReady := v;
     outputBuffer := outputBuffer c; children := children c;
     timers := timers c; promises := promises c; stdin := stdin c |}.

Definition set_outputBuffer (v : jsstring) (c : MCPTestClient) : MCPTestClient :=
  {| server := server c; requestId := requestId c;
     responseHandlers := responseHandlers c; serverReady := serverReady c;
     outputBuffer := v; children := children c;
     timers := timers c; promises := promises c; stdin := stdin c |}.

Definition set_children (v : list Listener) (c : MCPTestClient) : MCPTestClient :=
  {| server := server c; requestId := requestId c;
     responseHandlers := responseHandlers c; serverReady := serverReady c;
     outputBuffer := outputBuffer c; children := v;
     timers := timers c; promises := promises c; stdin := stdin c |}.

Definition set_timers (v : list (option TimerCallback)) (c : MCPTestClient)
  : MCPTestClient :=
  {| server := server c; requestId := requestId c;
     responseHandlers := responseHandlers c; serverReady := serverReady c;
     outputBuffer := outputBuffer c; children := children c;
     timers := v; promises := promises c; stdin := stdin c |}.

Definition set_promises (v : list Outcome) (c : MCPTestClient) : MCPTestClient :=
  {| server := server c; requestId := requestId c;
     responseHandlers := responseHandlers c; serverReady := serverReady c;
     outputBuffer := outputBuffer c; children := children c;
     timers := timers c; promises := v; stdin := stdin c |}.

Definition set_stdin (v : list (nat * jsstring)) (c : MCPTestClient)
  : MCPTestClient :=
  {| server := server c; requestId := requestId c;
     responseHandlers := responseHandlers c; serverReady := serverReady c;
     outputBuffer := outputBuffer c; children := children c;
     timers := timers c; promises := promises c; stdin := v |}.

(** [resolve(v)] and [reject(e)] of a promise: only a pending promise is
    settled, a later call does nothing. *)
Definition settle (p : nat) (o : Outcome) (ps : list Outcome) : list Outcome :=
  match ps !! p with
  | Some Pending => <[p := o]> ps
  | _ => ps
  end.

Definition resolve (p : nat) (v : JSValue) (c : MCPTestClient) : MCPTestClient :=
  set_promises (settle p (Resolved v) (promises c)) c.

Definition reject (p : nat) (message : jsstring) (c : MCPTestClient)
  : MCPTestClient :=
  set_promises (settle p (Rejected message) (promises c)) c.

(** [new Promise(...)]: the new promise is the next index. *)
Definition new_promise (o : Outcome) (c : MCPTestClient) : MCPTestClient * nat :=
  (set_promises (promises c ++ [o]) c, length (promises c)).

(** [setTimeout(cb, _)]: the new timer is the next index.  When it fires is
    the environment's choice (see [fire_timer]). *)
Definition setTimeout (cb : TimerCallback) (c : MCPTestClient)
  : MCPTestClient * nat :=
  (set_timers (timers c ++ [Some cb]) c, length (timers c)).

(** [clearTimeout(t)]; does nothing for a timer that is not there. *)
Definition clearTimeout (t : nat) (c : MCPTestClient) : MCPTestClient :=
  set_timers (<[t := None]> (timers c)) c.

(** The handler of [sendRequest] applied to a response. *)
Definition run_handler (h : Handler) (response : JSValue) (c : MCPTestClient)
  : MCPTestClient :=
  resolve (h_promise h) response (clearTimeout (h_timeout h) c).

(** Lines 77 to 81: [if (response.id && this.responseHandlers.has(response.id))]
    then get, delete and call the handler. *)
Definition dispatch (c : MCPTestClient) (response : JSValue) : MCPTestClient :=
  let id := get "id" response in
  if truthy id then
    match number_key id with
    | Some k =>
        match responseHandlers c !! k with
        | Some handler =>
            run_handler handler response
              (set_responseHandlers (delete k (responseHandlers c)) c)
        | None => c
        end
    | None => c
    end
  else c.

Definition READY : jsstring := lit "Ready to receive MCP requests".

Section Client.

(** [JSON.parse] ([None] when it throws) and [JSON.stringify]. *)
Variable JSON_parse : jsstring -> option JSValue.
Variable JSON_stringify : JSValue -> jsstring.

(** Lines 73 to 76: the trimmed line is decoded when it starts with an
    opening and ends with a closing brace and [JSON.parse] accepts it. *)
Definition decode (raw : jsstring) : option JSValue :=
  let line := trim raw in
  if startsWith (lit "{") line && endsWith (lit "}") line
  then JSON_parse line
  else None.

(** The body of the loop of [processOutputBuffer].  The [catch] leaves the
    state as it is. *)
Definition process_line (c : MCPTestClient) (raw : jsstring) : MCPTestClient :=
  match decode raw with
  | Some response => dispatch c response
  | None => c
  end.

Definition processOutputBuffer (c : MCPTestClient) : MCPTestClient :=
  let buffer := outputBuffer c in
  fold_left process_line (complete_lines buffer)
    (set_outputBuffer (incomplete_line buffer) c).

(** Lines 40 and 54: what the listener on [stdout] does with the text
    [output] of a chunk, the announcement of readiness apart.  The text is
    the chunk after [data.toString()] of line 39; [receive_bytes] below
    starts from the bytes. *)
Definition receive (c : MCPTestClient) (output : jsstring) : MCPTestClient :=
  processOutputBuffer (set_outputBuffer (outputBuffer c ++ output) c).

(** [cleanup()], up to its [await]; the promise it returns is resolved when
    the timer [CleanupWait] fires, or at once when there is no server. *)
Definition cleanup (c : MCPTestClient) : MCPTestClient * nat :=
  match server c with
  | Some _ =>
      let c1 := set_responseHandlers ∅
                  (set_serverReady false (set_server None c)) in
      let '(c2, p) := new_promise Pending c1 in
      let '(c3, _) := setTimeout (CleanupWait p) c2 in
      (c3, p)
  | None => new_promise (Resolved JUndefined) c
  end.

(** [start()]: spawn, arm the startup timer, attach the listeners. *)
Definition start (c : MCPTestClient) : MCPTestClient * nat :=
  let '(c1, p) := new_promise Pending c in
  let child := length (children c1) in
  let c2 := set_server (Some child) c1 in
  let '(c3, t) := setTimeout (StartTimeout p) c2 in
  (set_children (children c3 ++ [{| l_timeout := t; l_promise := p |}]) c3, p).

(** The listener on [stdout] of a child, lines 38 to 55, from the text
    [output] that line 39 decodes from the chunk; [on_stdout_bytes] below
    starts from the bytes. *)
Definition on_stdout_data (child : nat) (output : jsstring) (c : MCPTestClient)
  : MCPTestClient :=
  match children c !! child with
  | None => c
  | Some l =>
      let c1 := set_outputBuffer (outputBuffer c ++ output) c in
      let c2 :=
        if includes READY output then
          let c3 := clearTimeout (l_timeout l) (set_serverReady true c1) in
          resolve (l_promise l) JUndefined (processOutputBuffer c3)
        else c1 in
      processOutputBuffer c2
  end.

(** The listener on [error] of a child, lines 61 to 64. *)
Definition on_error (child : nat) (message : jsstring) (c : MCPTestClient)
  : MCPTestClient :=
  match children c !! child with
  | None => c
  | Some l => reject (l_promise l) message (clearTimeout (l_timeout l) c)
  end.

(** A timer fires: it is disarmed and its callback runs. *)
Definition fire_timer (t : nat) (c : MCPTestClient) : MCPTestClient :=
  match timers c !! t with
  | Some (Some cb) =>
      let c1 := clearTimeout t c in
      match cb with
      | StartTimeout p =>
          reject p (lit "Server failed to start within timeout")
            (fst (cleanup c1))
      | RequestTimeout id method p =>
          reject p (lit "Request " ++ method ++ lit " timed out")
            (set_responseHandlers (delete id (responseHandlers c1)) c1)
      | CleanupWait p => resolve p JUndefined c1
      end
  | _ => c
  end.

(** [sendRequest(method, params)].  An [async] function that throws returns
    a rejected promise. *)
Definition sendRequest (method : jsstring) (params : JSValue)
    (c : MCPTestClient) : MCPTestClient * nat :=
  match serverReady c, server c with
  | true, Some child =>
      let id := (requestId c + 1)%Z in
      let c1 := set_requestId id c in
      let request :=
        JObj [(lit "jsonrpc", JStr (lit "2.0"));
              (lit "id", JInt id);
              (lit "method", JStr method);
              (lit "params",
               match params with JUndefined => JObj [] | _ => params end)] in
      let '(c2, p) := new_promise Pending c1 in
      let '(c3, t) := setTimeout (RequestTimeout id method p) c2 in
      let c4 :=
        set_responseHandlers
          (<[id := {| h_timeout := t; h_promise := p |}]> (responseHandlers c3))
          c3 in
      (set_stdin (stdin c4 ++ [(child, JSON_stringify request ++ [nl])]) c4, p)
  | _, _ => new_promise (Rejected (lit "Server not ready")) c
  end.

(** What can happen to the client: calls of its methods and events of the
    runtime. *)
Inductive Event : Type :=
| EvStart
| EvData (child : nat) (output : jsstring)
| EvError (child : nat) (message : jsstring)
| EvTimer (t : nat)
| EvSendRequest (method : jsstring) (params : JSValue)
| EvCleanup.

Definition step (c : MCPTestClient) (e : Event) : MCPTestClient :=
  match e with
  | EvStart => fst (start c)
  | EvData child output => on_stdout_data child output c
  | EvError child message => on_error child message c
  | EvTimer t => fire_timer t c
  | EvSendRequest method params => fst (sendRequest method params c)
  | EvCleanup => fst (cleanup c)
  end.

Definition run (events : list Event) (c : MCPTestClient) : MCPTestClient :=
  fold_left step events c.

Definition reachable (c : MCPTestClient) : Prop :=
  exists events, c = run events new_client.



(** Several calls issued one after the other, before anything else
    happens; the promises they return, in order. *)
Fixpoint sendRequests (calls : list (jsstring * JSValue)) (c : MCPTestClient)
  : MCPTestClient * list nat :=
  match calls with
  | [] => (c, [])
  | (method, params) :: rest =>
      let '(c1, p) := sendRequest method params c in
      let '(c2, ps) := sendRequests rest c1 in
      (c2, p :: ps)
  end.

End Client.

(** ** Well-formed client states *)

(** Timer [t] is armed with callback [cb]. *)
Definition armed (c : MCPTestClient) (t : nat) (cb : TimerCallback) : Prop :=
  timers c !! t = Some (Some cb).

(** The promise a timer callback settles. *)
Definition timer_promise (cb : TimerCallback) : nat :=
  match cb with
  | StartTimeout p => p
  | RequestTimeout _ _ p => p
  | CleanupWait p => p
  end.

(** What holds of every state the client can reach: a registered handler
    belongs to a call whose timer is armed; the identifier of such a call was
    allocated; the promise of an armed timer is pending; armed timers settle
    different promises; and the listeners of a child hold the startup timer
    and the promise of their own [start] call only. *)
Record Inv (c : MCPTestClient) : Prop := {
  inv_requestId : (0 <= requestId c)%Z;
  inv_handler : forall k h,
    responseHandlers c !! k = Some h ->
    exists m, armed c (h_timeout h) (RequestTimeout k m (h_promise h));
  inv_request : forall t id m p,
    armed c t (RequestTimeout id m p) -> (1 <= id <= requestId c)%Z;
  inv_pending : forall t cb,
    armed c t cb -> promises c !! timer_promise cb = Some Pending;
  inv_unique : forall t t' cb cb',
    armed c t cb -> armed c t' cb' ->
    timer_promise cb = timer_promise cb' -> t = t';
  inv_listener_promise : forall child l,
    children c !! child = Some l -> l_promise l < length (promises c);
  inv_listener_timeout : forall child l,
    children c !! child = Some l -> l_timeout l < length (timers c);
  inv_listener_armed : forall child l cb,
    children c !! child = Some l -> armed c (l_timeout l) cb ->
    cb = StartTimeout (l_promise l);
  inv_listener_only : forall child l t cb,
    children c !! child = Some l -> armed c t cb ->
    timer_promise cb = l_promise l -> t = l_timeout l;
  inv_children : forall child child' l l',
    children c !! child = Some l -> children c !! child' = Some l' ->
    l_timeout l = l_timeout l' -> child = child'
}.

(** The call that got identifier [k] and returned promise [p] is
    outstanding: its handler is in the table and its promise is pending. *)
Definition awaiting (c : MCPTestClient) (k : Z) (p : nat) : Prop :=
  (k <= requestId c)%Z /\
  (exists t, responseHandlers c !! k = Some {| h_timeout := t; h_promise := p |}) /\
  promises c !! p = Some Pending.

(** Promises that are settled in [ps] are the same in [ps']. *)
Definition kept (ps ps' : list Outcome) : Prop :=
  forall p x, ps !! p = Some x -> x <> Pending -> ps' !! p = Some x.


(** ** The server: handlers and the ["tools/call"] request handler *)

(** An [Error] object: its [message], and [response.statusCode] when the
    cluster client attached a response.  The cluster client rejects with
    such objects, and [new Error(m)] builds one without a response. *)
Record ErrorObject : Type := { message : jsstring; statusCode : option Z }.

Definition new_Error (m : jsstring) : ErrorObject :=
  {| message := m; statusCode := None |}.

(** How a call ends: it returns, or it throws (a rejected promise, once
    awaited). *)
Inductive Completion (A : Type) : Type :=
| Return (a : A)
| Throw (e : ErrorObject).
Arguments Return {A} a.
Arguments Throw {A} e.

(** What is recorded of a run: the handlers entered, with the input they
    were given, and the calls made to the cluster. *)
Inductive Effect : Type :=
| HandlerCalled (handler : string) (input : JSValue)
| ListNamespacedPod (namespace : JSValue)
| ReadNamespacedPod (name namespace : JSValue)
| ListNode.

(** A computation: the effects it had, in order, and how it ended. *)
Definition Run (A : Type) : Type := list Effect * Completion A.

Definition ret {A} (a : A) : Run A := ([], Return a).
Definition throw {A} (e : ErrorObject) : Run A := ([], Throw e).
Definition effect (e : Effect) : Run unit := ([e], Return tt).
Definition lift {A} (c : Completion A) : Run A := ([], c).

Definition bind {A B} (m : Run A) (k : A -> Run B) : Run B :=
  match m with
  | (log, Return a) => let '(log', r) := k a in (log ++ log', r)
  | (log, Throw e) => (log, Throw e)
  end.

(** [try { m } catch (error) { h error }] *)
Definition try_catch {A} (m : Run A) (h : ErrorObject -> Run A) : Run A :=
  match m with
  | (log, Throw e) => let '(log', r) := h e in (log ++ log', r)
  | (log, Return a) => (log, Return a)
  end.

Notation "'let*' x ':=' m 'in' k" := (bind m (fun x => k))
  (at level 10, x name, k at level 200).

(** [a || b] *)
Definition js_or (a b : JSValue) : JSValue := if truthy a then a else b.

(** [Deno.env.get("K8S_NAMESPACE") || 'default'] *)
Definition config_kubernetes_namespace (K8S_NAMESPACE : option jsstring)
  : jsstring :=
  match K8S_NAMESPACE with
  | Some (c :: s) => c :: s
  | _ => lit "default"
  end.

(** The result of a tool call: [{ content: [{ type, text }], isError? }];
    a missing [isError] is [false]. *)
Record TextContent : Type := { type : jsstring; text : jsstring }.
Record CallToolResult : Type := { content : list TextContent; isError : bool }.

(** The request given to the handler: [params] may be missing, and so may
    [arguments]. *)
Record CallToolParams : Type := { name : jsstring; arguments : JSValue }.
Record CallToolRequest : Type := { params : option CallToolParams }.

(** The request [{ params: { name, arguments } }]. *)
Definition request_for (name : jsstring) (args : JSValue) : CallToolRequest :=
  {| params := Some {| name := name; arguments := args |} |}.

(** The envelope the protocol layer answers with: the value a request handler
    returns becomes the [result] of a success response, what it throws
    becomes the [error] of an error response. *)
Inductive Envelope : Type :=
| ResponseSuccess (result : CallToolResult)
| ResponseError (error_message : jsstring).

Definition respond (c : Completion CallToolResult) : Envelope :=
  match c with
  | Return r => ResponseSuccess r
  | Throw e => ResponseError (message e)
  end.

(** A property of an input schema of ["tools/list"], and a tool descriptor. *)
Record SchemaProperty : Type :=
  { prop_name : string; prop_default : option jsstring }.
Record ToolDescriptor : Type :=
  { tool_name : string;
    tool_required : list string;
    tool_properties : list SchemaProperty }.

Section Server.

Variable K8S_NAMESPACE : option jsstring.

(** The cluster client, and the mapping of its answers to what the tools
    show; each call ends with a value or throws. *)
Variable k8sApi_listNamespacedPod : JSValue -> Completion JSValue.
Variable k8sApi_readNamespacedPod : JSValue -> JSValue -> Completion JSValue.
Variable k8sApi_listNode : Completion JSValue.
Variable pods_of : JSValue -> Completion JSValue.
Variable pod_of : JSValue -> Completion JSValue.
Variable nodes_of : JSValue -> Completion JSValue.

(** [JSON.stringify(value, null, 2)], and the string a template literal
    makes of a value. *)
Variable JSON_stringify_indented : JSValue -> jsstring.
Variable ToString : JSValue -> jsstring.

Definition namespace_default : jsstring :=
  config_kubernetes_namespace K8S_NAMESPACE.

(** The descriptors answered by ["tools/list"], lines 159 to 214. *)
Definition tools_list : list ToolDescriptor :=
  [ {| tool_name := "list-pods"; tool_required := [];
       tool_properties :=
         [ {| prop_name := "namespace";
              prop_default := Some namespace_default |};
           {| prop_name := "labelSelector"; prop_default := None |} ] |};
    {| tool_name := "get-pod"; tool_required := ["name"%string];
       tool_properties :=
         [ {| prop_name := "name"; prop_default := None |};
           {| prop_name := "namespace";
              prop_default := Some namespace_default |} ] |};
    {| tool_name := "list-nodes"; tool_required := [];
       tool_properties :=
         [ {| prop_name := "labelSelector"; prop_default := None |} ] |} ].

Definition listPodsHandler (input : JSValue) : Run JSValue :=
  let* _ := effect (HandlerCalled "listPodsHandler" input) in
  let namespace := js_or (get "namespace" input) (JStr namespace_default) in
  try_catch
    (let* _ := effect (ListNamespacedPod namespace) in
     let* response := lift (k8sApi_listNamespacedPod namespace) in
     let* pods := lift (pods_of response) in
     ret (JObj [(lit "pods", pods)]))
    (fun error =>
       throw (new_Error (lit "Failed to list pods: " ++ message error))).

Definition getPodHandler (input : JSValue) : Run JSValue :=
  let* _ := effect (HandlerCalled "getPodHandler" input) in
  let name := get "name" input in
  let namespace := js_or (get "namespace" input) (JStr namespace_default) in
  if negb (truthy name) then throw (new_Error (lit "Pod name is required"))
  else
    try_catch
      (let* _ := effect (ReadNamespacedPod name namespace) in
       let* response := lift (k8sApi_readNamespacedPod name namespace) in
       let* pod := lift (pod_of response) in
       ret (JObj [(lit "pod", pod)]))
      (fun error =>
         if bool_decide (statusCode error = Some 404%Z) then
           throw (new_Error
                    (lit "Pod '" ++ ToString name
                     ++ lit "' not found in namespace '"
                     ++ ToString namespace ++ lit "'"))
         else
           throw (new_Error (lit "Failed to get pod: " ++ message error))).

Definition listNodesHandler : Run JSValue :=
  let* _ := effect (HandlerCalled "listNodesHandler" JUndefined) in
  try_catch
    (let* _ := effect ListNode in
     let* response := lift k8sApi_listNode in
     let* nodes := lift (nodes_of response) in
     ret (JObj [(lit "nodes", nodes)]))
    (fun error =>
       throw (new_Error (lit "Failed to list nodes: " ++ message error))).

Definition text_result (t : jsstring) : CallToolResult :=
  {| content := [ {| type := lit "text"; text := t |} ]; isError := false |}.

Definition error_result (t : jsstring) : CallToolResult :=
  {| content := [ {| type := lit "text"; text := t |} ]; isError := true |}.

(** The handler registered for ["tools/call"], lines 217 to 243.  The
    destructuring of [request.params] is outside the [try]. *)
Definition tools_call (request : CallToolRequest) : Run CallToolResult :=
  match params request with
  | None =>
      throw (new_Error
               (lit "Cannot destructure property 'name' of 'request.params' as it is undefined."))
  | Some p =>
      let name := name p in
      let args := arguments p in
      try_catch
        (if bool_decide (name = lit "list-pods") then
           let* podsResult := listPodsHandler (js_or args (JObj [])) in
           ret (text_result (JSON_stringify_indented podsResult))
         else if bool_decide (name = lit "get-pod") then
           let* podResult := getPodHandler (js_or args (JObj [])) in
           ret (text_result (JSON_stringify_indented podResult))
         else if bool_decide (name = lit "list-nodes") then
           let* nodesResult := listNodesHandler in
           ret (text_result (JSON_stringify_indented nodesResult))
         else
           throw (new_Error (lit "Unknown tool: " ++ name)))
        (fun error => ret (error_result (lit "Error: " ++ message error)))
  end.

(** The handler the [switch] of ["tools/call"] selects for a name. *)
Definition tool_handler (name : jsstring) : option (JSValue -> Run JSValue) :=
  if bool_decide (name = lit "list-pods") then Some listPodsHandler
  else if bool_decide (name = lit "get-pod") then Some getPodHandler
  else if bool_decide (name = lit "list-nodes") then Some (fun _ => listNodesHandler)
  else None.

(** The second server registers its tools with [server.tool]; the callback
    of ["list-pods"] catches the failure of the cluster call itself. *)
Definition list_pods_tool (namespace : JSValue) : Run CallToolResult :=
  let* _ := effect (HandlerCalled "list-pods" namespace) in
  try_catch
    (let* _ := effect (ListNamespacedPod namespace) in
     let* response := lift (k8sApi_listNamespacedPod namespace) in
     let* pods := lift (pods_of response) in
     ret (text_result (JSON_stringify_indented (JObj [(lit "pods", pods)]))))
    (fun error =>
       ret (error_result (lit "Error listing pods: " ++ message error))).

End Server.

(** ** Sample instances

    Small stand-ins for the parts taken as parameters, used to run the
    definitions on concrete inputs. *)

Module Sample.

(** ["..."] with its quotes. *)
Definition quoted (s : string) : jsstring := [34%N] ++ lit s ++ [34%N].

(** The frame [{"id":d}] for a digit [d]. *)
Definition frame (d : N) : jsstring :=
  lit "{" ++ quoted "id" ++ lit ":" ++ [(48 + d)%N] ++ lit "}".

Definition response (d : N) : JSValue := JObj [(lit "id", JInt (Z.of_N d))].

(** A decoder for the frames [{"id":d}]; it throws on any other text. *)
Definition parse (s : jsstring) : option JSValue :=
  match s with
  | [123; 34; 105; 100; 34; 58; d; 125]%N =>
      if (N.leb 48 d && N.leb d 57)%N then Some (response (d - 48)) else None
  | _ => None
  end.

Definition stringify (v : JSValue) : jsstring :=
  match get "id" v with
  | JNum q => frame (Z.to_N (Qnum q))
  | _ => lit "{}"
  end.

(** A client that has started its server and seen it announce readiness,
    and the same client with two calls outstanding. *)
Definition ready_client : MCPTestClient :=
  run parse stringify [EvStart; EvData 0 (READY ++ [nl])] new_client.

Definition two_calls : list Event :=
  [EvStart; EvData 0 (READY ++ [nl]);
   EvSendRequest (lit "tools/list") JUndefined;
   EvSendRequest (lit "tools/call") (JObj [])].

Definition busy_client : MCPTestClient :=
  run parse stringify two_calls new_client.

Definition three_calls : list Event :=
  two_calls ++ [EvSendRequest (lit "initialize") JNull].

(** A cluster that refuses every call. *)
Definition refused : ErrorObject :=
  {| message := lit "connection refused"; statusCode := None |}.
Definition listNamespacedPod (namespace : JSValue) : Completion JSValue :=
  Throw refused.
Definition readNamespacedPod (name namespace : JSValue) : Completion JSValue :=
  Throw refused.
Definition listNode : Completion JSValue := Throw refused.
Definition view (response : JSValue) : Completion JSValue := Return response.
Definition show (v : JSValue) : jsstring :=
  match v with JStr s => s | _ => lit "[object Object]" end.

Definition tools_call : CallToolRequest -> Run CallToolResult :=
  tools_call None listNamespacedPod readNamespacedPod listNode
    view view view show show.

Definition call (tool : string) (args : JSValue) : CallToolRequest :=
  request_for (lit tool) args.

End Sample.

(** ** Further definitions: the rest of the client and of the servers *)

(** The request object that [sendRequest] builds, lines 95 to 100. *)
Definition request_object (id : Z) (method : jsstring) (params : JSValue)
  : JSValue :=
  JObj [(lit "jsonrpc", JStr (lit "2.0"));
        (lit "id", JInt id);
        (lit "method", JStr method);
        (lit "params",
         match params with JUndefined => JObj [] | _ => params end)].

(** Timers that are cleared (or have fired) in [ts] are so in [ts']. *)
Definition cleared_kept (ts ts' : list (option TimerCallback)) : Prop :=
  forall t, ts !! t = Some None -> ts' !! t = Some None.

(** Entry [i] of what was written to the children: to a child that was
    spawned, the request with identifier [i + 1] and its terminator. *)
Definition written_frame (JSON_stringify : JSValue -> jsstring)
    (spawned : nat) (i : nat) (entry : nat * jsstring) : Prop :=
  fst entry < spawned /\
  exists method params,
    snd entry =
    JSON_stringify (request_object (Z.of_nat i + 1) method params) ++ [nl].

(** The call of [start] is not among the events. *)
Definition no_start (events : list Event) : Prop :=
  Forall (fun e => e <> EvStart) events.

(** A cluster call, as opposed to the entry of a handler. *)
Definition is_cluster_call (e : Effect) : bool :=
  match e with
  | HandlerCalled _ _ => false
  | ListNamespacedPod _ | ReadNamespacedPod _ _ | ListNode => true
  end.

Section SecondServer.

Variable k8sApi_readNamespacedPod : JSValue -> JSValue -> Completion JSValue.
Variable k8sApi_listNode : Completion JSValue.
Variable pod_of : JSValue -> Completion JSValue.
Variable nodes_of : JSValue -> Completion JSValue.
Variable JSON_stringify_indented : JSValue -> jsstring.
Variable ToString : JSValue -> jsstring.

(** The callbacks of ["get-pod"] and ["list-nodes"] of the second server;
    the input has been validated and completed by the library before. *)
Definition get_pod_tool (name namespace : JSValue) : Run CallToolResult :=
  let* _ := effect (HandlerCalled "get-pod" name) in
  try_catch
    (let* _ := effect (ReadNamespacedPod name namespace) in
     let* response := lift (k8sApi_readNamespacedPod name namespace) in
     let* pod := lift (pod_of response) in
     ret (text_result (JSON_stringify_indented (JObj [(lit "pod", pod)]))))
    (fun error =>
       if bool_decide (statusCode error = Some 404%Z) then
         ret (error_result
                (lit "Pod '" ++ ToString name
                 ++ lit "' not found in namespace '"
                 ++ ToString namespace ++ lit "'"))
       else
         ret (error_result (lit "Error getting pod: " ++ message error))).

Definition list_nodes_tool (labelSelector : JSValue) : Run CallToolResult :=
  let* _ := effect (HandlerCalled "list-nodes" labelSelector) in
  try_catch
    (let* _ := effect ListNode in
     let* response := lift k8sApi_listNode in
     let* nodes := lift (nodes_of response) in
     ret (text_result (JSON_stringify_indented (JObj [(lit "nodes", nodes)]))))
    (fun error =>
       ret (error_result (lit "Error listing nodes: " ++ message error))).

End SecondServer.

(** The check of the step "Handle invalid tool gracefully" of the
    integration test, lines 91 to 110 of [mcp_server_test.ts], on the
    envelope the client got. *)
Definition accepts_invalid_tool (response : Envelope) : bool :=
  match response with
  | ResponseError m =>
      includes (lit "Unknown tool") m || includes (lit "not found") m
  | ResponseSuccess r =>
      match content r with
      | first :: _ =>
          includes (lit "Error") (text first)
          || includes (lit "Unknown") (text first)
      | [] => false
      end
  end.

(** What [main] of [server.ts] prints on standard output with
    [console.log], one line per call: the greeting; when the cluster client
    could be set up, its confirmation; and when the server is connected, the
    last two lines.  The check mark is U+2713. *)
Definition main_stdout (name version : jsstring) (initialized connected : bool)
  : list jsstring :=
  (lit "Starting " ++ name ++ lit " v" ++ version) ::
  if initialized then
    ([10003%N] ++ lit " Kubernetes client initialized") ::
    if connected then
      [ [10003%N] ++ lit " MCP server started and connected via stdio";
        lit "Ready to receive MCP requests..." ]
    else []
  else [].

(** [config.name] and [config.version] of [server.ts]. *)
Definition config_name (MCP_SERVER_NAME : option jsstring) : jsstring :=
  match MCP_SERVER_NAME with
  | Some (c :: s) => c :: s
  | _ => lit "kubernetes-mcp-server"
  end.

Definition config_version (MCP_SERVER_VERSION : option jsstring) : jsstring :=
  match MCP_SERVER_VERSION with
  | Some (c :: s) => c :: s
  | _ => lit "1.0.0"
  end.

(** ** Bytes to text: [data.toString()] of the listener on [stdout] *)

(** [toString] of a buffer decodes its bytes as UTF-8 and puts U+FFFD in the
    place of what is no character, in the way of the decoder of the Encoding
    standard.  The state of the decoder between two bytes: nothing pending,
    or a character begun, with the bits read so far, the number of
    continuation bytes still expected and the range allowed for the next
    one. *)
Inductive Utf8Pending : Type :=
| Utf8Idle
| Utf8More (bits : N) (remaining : nat) (lower upper : N).

(** A byte that starts a character.  A byte that can start none gives the
    replacement character U+FFFD. *)
Definition utf8_start (b : N) : list N * Utf8Pending :=
  (if N.leb b 127 then ([b], Utf8Idle)
   else if N.leb 194 b && N.leb b 223
        then ([], Utf8More (N.land b 31) 1%nat 128 191)
   else if N.leb 224 b && N.leb b 239
        then ([], Utf8More (N.land b 15) 2%nat
                    (if N.eqb b 224 then 160 else 128)
                    (if N.eqb b 237 then 159 else 191))
   else if N.leb 240 b && N.leb b 244
        then ([], Utf8More (N.land b 7) 3%nat
                    (if N.eqb b 240 then 144 else 128)
                    (if N.eqb b 244 then 143 else 191))
   else ([65533], Utf8Idle))%N.

(** One byte: the code points it completes, and the new state.  A byte that
    cannot continue the character begun ends it with U+FFFD and is read
    again as a first byte. *)
Definition utf8_step (st : Utf8Pending) (b : N) : list N * Utf8Pending :=
  match st with
  | Utf8Idle => utf8_start b
  | Utf8More bits remaining lower upper =>
      if N.leb lower b && N.leb b upper then
        let bits' := (bits * 64 + N.land b 63)%N in
        match remaining with
        | S (S n) => ([], Utf8More bits' (S n) 128%N 191%N)
        | _ => ([bits'], Utf8Idle)
        end
      else
        let '(out, st') := utf8_start b in (65533%N :: out, st')
  end.

Fixpoint utf8_run (st : Utf8Pending) (data : list N) : list N * Utf8Pending :=
  match data with
  | [] => ([], st)
  | b :: rest =>
      let '(out, st1) := utf8_step st b in
      let '(outs, st2) := utf8_run st1 rest in
      (out ++ outs, st2)
  end.

(** At the end of the data a character that was begun gives U+FFFD. *)
Definition utf8_flush (st : Utf8Pending) : list N :=
  match st with
  | Utf8Idle => []
  | Utf8More _ _ _ _ => [65533%N]
  end.

(** A code point as UTF-16 code units. *)
Definition utf16 (cp : N) : list N :=
  if N.ltb cp 65536%N then [cp]
  else [(55296 + (cp - 65536) / 1024)%N; (56320 + (cp - 65536) mod 1024)%N].

(** [data.toString()] of a buffer: its bytes decoded as UTF-8, each chunk
    on its own. *)
Definition toString (data : list N) : jsstring :=
  let '(out, st) := utf8_run Utf8Idle data in
  List.concat (List.map utf16 (out ++ utf8_flush st)).

(** The data ends where a character ends. *)
Definition whole_characters (data : list N) : Prop :=
  snd (utf8_run Utf8Idle data) = Utf8Idle.

Section ClientBytes.

Variable JSON_parse : jsstring -> option JSValue.

(** Lines 38 to 40 and 54 on the bytes of a chunk:
    [const output = data.toString(); this.outputBuffer += output; ...]. *)
Definition receive_bytes (c : MCPTestClient) (data : list N) : MCPTestClient :=
  receive JSON_parse c (toString data).

Definition on_stdout_bytes (child : nat) (data : list N) (c : MCPTestClient)
  : MCPTestClient :=
  on_stdout_data JSON_parse child (toString data) c.

End ClientBytes.

(** A decoder for the frames [{"id":d,"result":"text"}], for a digit [d] and
    a text without quotes; it throws on any other text. *)
Module TextSample.

Definition frame (d : N) (content : jsstring) : jsstring :=
  lit "{" ++ Sample.quoted "id" ++ lit ":" ++ [(48 + d)%N] ++ lit ","
  ++ Sample.quoted "result" ++ lit ":" ++ [34%N] ++ content ++ [34%N] ++ lit "}".

Definition response (d : N) (content : jsstring) : JSValue :=
  JObj [(lit "id", JInt (Z.of_N d)); (lit "result", JStr content)].

Definition parse (s : jsstring) : option JSValue :=
  match s with
  | (123 :: 34 :: 105 :: 100 :: 34 :: 58 :: d :: 44 :: rest)%N =>
      if (N.leb 48 d && N.leb d 57)%N
         && startsWith (Sample.quoted "result" ++ lit ":" ++ [34%N]) rest
         && endsWith [34%N; 125%N] rest
      then Some (response (d - 48)
                   (removelast (removelast (skipn 10 rest))))
      else None
  | _ => None
  end.

(** The bytes of [{"id":1,"result":"é"}] and its terminator; the character
    [é] is the two bytes 195 and 169, at the indices 18 and 19. *)
Definition accented_bytes : list N :=
  lit "{" ++ Sample.quoted "id" ++ lit ":1," ++ Sample.quoted "result"
  ++ lit ":" ++ [34; 195; 169; 34]%N ++ lit "}" ++ [nl].

End TextSample.




(** ** The dispatch of the second server *)

(** The fields of the input shapes of the second server: [z.string()],
    [z.string().optional()] and [z.string().default(value)]. *)
Inductive FieldShape : Type :=
| StringField
| OptionalString
| StringWithDefault (value : jsstring).

(** Modelled from the spec: the validation of a raw input against an input
    shape, with the default-value policy of section 4.4.  The second server
    leaves it to its schema library and to [server.tool] of the protocol
    library, which are not in the repository.  A field that is there must be
    a string; an omitted field fails when it is required, stays absent when
    it is optional, and takes the declared default otherwise. *)
Definition validate_field (shape : FieldShape) (v : JSValue) : option JSValue :=
  match v with
  | JStr s => Some (JStr s)
  | JUndefined =>
      match shape with
      | StringField => None
      | OptionalString => Some JUndefined
      | StringWithDefault value => Some (JStr value)
      end
  | _ => None
  end.

Fixpoint validate_fields (shape : list (string * FieldShape))
    (fields : list (jsstring * JSValue)) : option (list (jsstring * JSValue)) :=
  match shape with
  | [] => Some []
  | (key, field) :: rest =>
      match validate_field field (assoc (lit key) fields),
            validate_fields rest fields with
      | Some v, Some vs => Some ((lit key, v) :: vs)
      | _, _ => None
      end
  end.

Definition validate (shape : list (string * FieldShape)) (rawInput : JSValue)
  : option JSValue :=
  match rawInput with
  | JObj fields => option_map JObj (validate_fields shape fields)
  | _ => None
  end.

Section SecondServerDispatch.

Variable K8S_NAMESPACE : option jsstring.
Variable k8sApi_listNamespacedPod : JSValue -> Completion JSValue.
Variable k8sApi_readNamespacedPod : JSValue -> JSValue -> Completion JSValue.
Variable k8sApi_listNode : Completion JSValue.
Variable pods_of pod_of nodes_of : JSValue -> Completion JSValue.
Variable JSON_stringify_indented : JSValue -> jsstring.
Variable ToString : JSValue -> jsstring.

(** The input shapes given to [server.tool], lines 53 to 56, 92 to 95 and
    146 to 148 of the second server. *)
Definition list_pods_shape : list (string * FieldShape) :=
  [("namespace"%string,
    StringWithDefault (config_kubernetes_namespace K8S_NAMESPACE));
   ("labelSelector"%string, OptionalString)].

Definition get_pod_shape : list (string * FieldShape) :=
  [("name"%string, StringField);
   ("namespace"%string,
    StringWithDefault (config_kubernetes_namespace K8S_NAMESPACE))].

Definition list_nodes_shape : list (string * FieldShape) :=
  [("labelSelector"%string, OptionalString)].

(** Modelled from the spec: [dispatch(name, rawInput)] of section 4.4 over
    the tools the second server registers, in place of [server.tool] of the
    protocol library, which is not in the repository: an unknown name and an
    input that does not validate end in an error response, without the
    callback; otherwise the callback gets the validated input. *)
Definition second_server_call (name : jsstring) (rawInput : JSValue)
  : Run CallToolResult :=
  let invalid := throw (new_Error (lit "invalid input")) in
  if bool_decide (name = lit "list-pods") then
    match validate list_pods_shape rawInput with
    | Some input =>
        list_pods_tool k8sApi_listNamespacedPod pods_of
          JSON_stringify_indented (get "namespace" input)
    | None => invalid
    end
  else if bool_decide (name = lit "get-pod") then
    match validate get_pod_shape rawInput with
    | Some input =>
        get_pod_tool k8sApi_readNamespacedPod pod_of JSON_stringify_indented
          ToString (get "name" input) (get "namespace" input)
    | None => invalid
    end
  else if bool_decide (name = lit "list-nodes") then
    match validate list_nodes_shape rawInput with
    | Some input =>
        list_nodes_tool k8sApi_listNode nodes_of JSON_stringify_indented
          (get "labelSelector" input)
    | None => invalid
    end
  else throw (new_Error (lit "unknown tool: " ++ name)).

End SecondServerDispatch.

(** * Properties

    ** Splitting a buffer into lines *)

Lemma split_nonempty sep s : split sep s <> [].
Proof.
  destruct s as [|c s]; simpl; [discriminate|].
  destruct (N.eqb c sep); [discriminate|].
  destruct (split sep s); discriminate.
Qed.

Lemma complete_lines_cons c s :
  complete_lines (c :: s) =
  if N.eqb c nl then [] :: complete_lines s
  else match complete_lines s with
       | [] => []
       | l :: ls => (c :: l) :: ls
       end.
Proof.
  unfold complete_lines. simpl.
  pose proof (split_nonempty nl s) as Hne.
  destruct (N.eqb c nl).
  - destruct (split nl s); [congruence | reflexivity].
  - destruct (split nl s) as [|l [|l' ls]]; [congruence | reflexivity | reflexivity].
Qed.

Lemma incomplete_line_cons c s :
  incomplete_line (c :: s) =
  if N.eqb c nl then incomplete_line s
  else match complete_lines s with
       | [] => c :: incomplete_line s
       | _ :: _ => incomplete_line s
       end.
Proof.
  unfold incomplete_line, complete_lines. simpl.
  pose proof (split_nonempty nl s) as Hne.
  destruct (N.eqb c nl).
  - destruct (split nl s); [congruence | reflexivity].
  - destruct (split nl s) as [|l [|l' ls]]; [congruence | reflexivity | reflexivity].
Qed.

Lemma complete_lines_nil : complete_lines [] = [].
Proof. reflexivity. Qed.

Lemma incomplete_line_nil : incomplete_line [] = [].
Proof. reflexivity. Qed.

(** A buffer without a terminator holds no complete line and is kept whole. *)
Lemma newline_free_lines s :
  newline_free s -> complete_lines s = [] /\ incomplete_line s = s.
Proof.
  induction 1 as [|c s Hc _ [IH1 IH2]]; [split; reflexivity|].
  rewrite complete_lines_cons, incomplete_line_cons.
  apply N.eqb_neq in Hc. rewrite Hc, IH1, IH2. split; reflexivity.
Qed.

Lemma incomplete_line_newline_free s : newline_free (incomplete_line s).
Proof.
  induction s as [|c s IH]; [constructor|].
  rewrite incomplete_line_cons.
  destruct (N.eqb c nl) eqn:Hc; [exact IH|].
  destruct (complete_lines s); [|exact IH].
  constructor; [now apply N.eqb_neq | exact IH].
Qed.

(** Appending to a buffer: the complete lines of the whole are those of the
    first part, then those of what the first part left over followed by the
    second part. *)
Lemma complete_lines_app a b :
  complete_lines (a ++ b) =
  complete_lines a ++ complete_lines (incomplete_line a ++ b).
Proof.
  induction a as [|c a IH]; [reflexivity|].
  simpl. rewrite complete_lines_cons, incomplete_line_cons, (complete_lines_cons c a).
  destruct (N.eqb c nl) eqn:Hc.
  - rewrite IH. reflexivity.
  - rewrite IH. destruct (complete_lines a) as [|l ls]; simpl.
    + rewrite complete_lines_cons, Hc. reflexivity.
    + reflexivity.
Qed.

Lemma incomplete_line_app a b :
  incomplete_line (a ++ b) = incomplete_line (incomplete_line a ++ b).
Proof.
  induction a as [|c a IH]; [reflexivity|].
  simpl. rewrite incomplete_line_cons, (incomplete_line_cons c a), complete_lines_app.
  destruct (N.eqb c nl) eqn:Hc; [exact IH|].
  destruct (complete_lines a) as [|l ls]; simpl.
  - rewrite incomplete_line_cons, Hc, IH. reflexivity.
  - exact IH.
Qed.

(** One terminated frame in front of a buffer. *)
Lemma complete_lines_frame f rest :
  newline_free f ->
  complete_lines (f ++ nl :: rest) = f :: complete_lines rest /\
  incomplete_line (f ++ nl :: rest) = incomplete_line rest.
Proof.
  induction 1 as [|c f Hc _ [IH1 IH2]]; simpl.
  - rewrite complete_lines_cons, incomplete_line_cons. simpl. split; reflexivity.
  - rewrite complete_lines_cons, incomplete_line_cons.
    apply N.eqb_neq in Hc. rewrite Hc, IH1, IH2. split; reflexivity.
Qed.

Lemma complete_lines_frames frames tail :
  Forall newline_free frames -> newline_free tail ->
  complete_lines (frame_bytes frames ++ tail) = frames /\
  incomplete_line (frame_bytes frames ++ tail) = tail.
Proof.
  intros Hf Ht. induction Hf as [|f frames Hnf _ [IH1 IH2]]; simpl.
  - now apply newline_free_lines.
  - unfold frame_bytes in *. simpl. rewrite <- !app_assoc. simpl.
    destruct (complete_lines_frame f
                (List.concat (List.map (fun f => f ++ [nl]) frames) ++ tail) Hnf)
      as [E1 E2].
    rewrite E1, E2, IH1, IH2. split; reflexivity.
Qed.


(** ** The demultiplexer does not depend on how the stream is cut *)

Section Demultiplexer.

Variable parse : jsstring -> option JSValue.

Lemma set_outputBuffer_same c : set_outputBuffer (outputBuffer c) c = c.
Proof. destruct c; reflexivity. Qed.

Lemma set_outputBuffer_twice b b' c :
  set_outputBuffer b (set_outputBuffer b' c) = set_outputBuffer b c.
Proof. reflexivity. Qed.

Lemma dispatch_set_outputBuffer b c r :
  dispatch (set_outputBuffer b c) r = set_outputBuffer b (dispatch c r).
Proof.
  unfold dispatch. cbn.
  destruct (truthy _); [|reflexivity].
  destruct (number_key _) as [k|]; [|reflexivity].
  destruct (responseHandlers c !! k); reflexivity.
Qed.

Lemma process_line_set_outputBuffer b c raw :
  process_line parse (set_outputBuffer b c) raw =
  set_outputBuffer b (process_line parse c raw).
Proof.
  unfold process_line. destruct (decode parse raw); [|reflexivity].
  apply dispatch_set_outputBuffer.
Qed.

Lemma process_lines_set_outputBuffer lines b c :
  fold_left (process_line parse) lines (set_outputBuffer b c) =
  set_outputBuffer b (fold_left (process_line parse) lines c).
Proof.
  revert c. induction lines as [|l lines IH]; intros c; [reflexivity|].
  simpl. rewrite process_line_set_outputBuffer. apply IH.
Qed.

(** One run of [processOutputBuffer]: the complete lines go through the
    loop body in order, the rest stays in the buffer. *)
Lemma processOutputBuffer_lines c :
  processOutputBuffer parse c =
  set_outputBuffer (incomplete_line (outputBuffer c))
    (fold_left (process_line parse) (complete_lines (outputBuffer c)) c).
Proof. unfold processOutputBuffer. apply process_lines_set_outputBuffer. Qed.

Lemma receive_lines c output :
  receive parse c output =
  set_outputBuffer (incomplete_line (outputBuffer c ++ output))
    (fold_left (process_line parse)
       (complete_lines (outputBuffer c ++ output)) c).
Proof.
  unfold receive. rewrite processOutputBuffer_lines. cbn.
  rewrite process_lines_set_outputBuffer. reflexivity.
Qed.

(** Feeding chunks one by one is feeding their concatenation at once. *)
Lemma receive_chunks chunks : forall c,
  newline_free (outputBuffer c) ->
  fold_left (receive parse) chunks c =
  set_outputBuffer (incomplete_line (outputBuffer c ++ List.concat chunks))
    (fold_left (process_line parse)
       (complete_lines (outputBuffer c ++ List.concat chunks)) c).
Proof.
  induction chunks as [|chunk chunks IH]; intros c Hc.
  - simpl. rewrite app_nil_r.
    destruct (newline_free_lines _ Hc) as [-> ->].
    simpl. symmetry. apply set_outputBuffer_same.
  - simpl. rewrite receive_lines.
    rewrite IH by (cbn; apply incomplete_line_newline_free).
    cbn. rewrite process_lines_set_outputBuffer. cbn.
    rewrite app_assoc.
    rewrite (complete_lines_app (outputBuffer c ++ chunk)).
    rewrite (incomplete_line_app (outputBuffer c ++ chunk)).
    rewrite fold_left_app. reflexivity.
Qed.

(** Lines that decode are handed to the correlation step as messages. *)
Lemma process_lines_decoded frames : forall messages c,
  Forall2 (fun f m => decode parse f = Some m) frames messages ->
  fold_left (process_line parse) frames c = fold_left dispatch messages c.
Proof.
  induction frames as [|f frames IH]; intros messages c H; inversion H; subst.
  - reflexivity.
  - simpl. unfold process_line at 2.
    match goal with E : decode parse f = Some _ |- _ => rewrite E end.
    now apply IH.
Qed.

(** Frames cut into chunks in any way reach the correlation step as the
    messages they decode to, in order; the unterminated rest stays. *)
Lemma receive_frames frames messages rest chunks c :
  Forall newline_free frames ->
  Forall2 (fun f m => decode parse f = Some m) frames messages ->
  newline_free rest ->
  outputBuffer c = [] ->
  List.concat chunks = frame_bytes frames ++ rest ->
  fold_left (receive parse) chunks c =
  set_outputBuffer rest (fold_left dispatch messages c).
Proof.
  intros Hframes Hdecode Hrest Hbuf Hcut.
  rewrite receive_chunks by (rewrite Hbuf; constructor).
  rewrite Hbuf. simpl. rewrite Hcut.
  destruct (complete_lines_frames frames rest Hframes Hrest) as [-> ->].
  now rewrite (process_lines_decoded frames messages).
Qed.

(** What the listener on [stdout] does with a chunk is [receive], between
    the steps for the announcement of readiness when the chunk holds it. *)
Lemma on_stdout_data_receive child l output c :
  children c !! child = Some l ->
  on_stdout_data parse child output c =
  if includes READY output
  then resolve (l_promise l) JUndefined
         (receive parse
            (clearTimeout (l_timeout l) (set_serverReady true c)) output)
  else receive parse c output.
Proof.
  intros Hl. unfold on_stdout_data. rewrite Hl.
  destruct (includes READY output); [|reflexivity].
  unfold receive at 1, resolve. rewrite !processOutputBuffer_lines.
  cbn [outputBuffer set_outputBuffer set_promises clearTimeout set_timers
       set_serverReady].
  destruct (newline_free_lines _
              (incomplete_line_newline_free (outputBuffer c ++ output)))
    as [-> ->].
  reflexivity.
Qed.

End Demultiplexer.

(** ** Timers and promises *)

Lemma armed_clearTimeout c t0 t cb :
  armed (clearTimeout t0 c) t cb <-> t <> t0 /\ armed c t cb.
Proof.
  unfold armed, clearTimeout. cbn.
  destruct (decide (t = t0)) as [->|Hne].
  - split; [|intros [? _]; congruence].
    intros H. exfalso.
    destruct (decide (t0 < length (timers c))) as [Hlt|Hge].
    + rewrite list_lookup_insert_eq in H by exact Hlt. discriminate.
    + rewrite list_insert_ge in H by lia.
      rewrite lookup_ge_None_2 in H by lia. discriminate.
  - rewrite list_lookup_insert_ne by congruence. tauto.
Qed.

Lemma armed_setTimeout c cb0 t cb :
  armed (fst (setTimeout cb0 c)) t cb <->
  armed c t cb \/ (t = length (timers c) /\ cb = cb0).
Proof.
  unfold armed, setTimeout. cbn.
  destruct (decide (t < length (timers c))) as [Hlt|Hge].
  - rewrite lookup_app_l by exact Hlt. split; [tauto|].
    intros [H|[-> _]]; [exact H | lia].
  - rewrite lookup_app_r by lia.
    rewrite (lookup_ge_None_2 (timers c) t) by lia.
    split.
    + intros H. right.
      destruct (t - length (timers c)) as [|n] eqn:E; cbn in H; [|discriminate].
      split; [lia | congruence].
    + intros [H|[-> ->]]; [discriminate|].
      now rewrite Nat.sub_diag.
Qed.

Lemma armed_lt c t cb : armed c t cb -> t < length (timers c).
Proof. unfold armed. intros H. now apply lookup_lt_Some in H. Qed.

Lemma length_settle p o ps : length (settle p o ps) = length ps.
Proof.
  unfold settle. destruct (ps !! p) as [[| |]|]; try reflexivity.
  apply length_insert.
Qed.

Lemma settle_lookup_ne p o ps p' : p' <> p -> settle p o ps !! p' = ps !! p'.
Proof.
  intros Hne. unfold settle. destruct (ps !! p) as [[| |]|]; try reflexivity.
  apply list_lookup_insert_ne. congruence.
Qed.

Lemma settle_pending p o ps : ps !! p = Some Pending -> settle p o ps !! p = Some o.
Proof.
  intros H. unfold settle. rewrite H.
  apply list_lookup_insert_eq. now apply lookup_lt_Some in H.
Qed.

(** A settled promise stays as it is. *)
Lemma settle_settled p o ps p' x :
  ps !! p' = Some x -> x <> Pending -> settle p o ps !! p' = Some x.
Proof.
  intros H Hx. destruct (decide (p' = p)) as [->|Hne].
  - unfold settle. rewrite H. destruct x; congruence.
  - now rewrite settle_lookup_ne.
Qed.

(** ** The invariant of the client *)

Lemma Inv_new_client : Inv new_client.
Proof.
  constructor; unfold armed; cbn; intros; try lia; try discriminate.
Qed.

(** The invariant reads five fields only. *)
Lemma Inv_ext c c' :
  Inv c ->
  requestId c' = requestId c ->
  responseHandlers c' = responseHandlers c ->
  timers c' = timers c ->
  promises c' = promises c ->
  children c' = children c ->
  Inv c'.
Proof.
  intros [] E1 E2 E3 E4 E5.
  constructor; unfold armed in *; rewrite ?E1, ?E2, ?E3, ?E4, ?E5; assumption.
Qed.

Lemma Inv_delete k c :
  Inv c -> Inv (set_responseHandlers (delete k (responseHandlers c)) c).
Proof.
  intros []. constructor; try assumption. cbn. intros k' h H.
  apply lookup_delete_Some in H as [_ H]. now apply (inv_handler0 k' h).
Qed.

Lemma Inv_clear_handlers c : Inv c -> Inv (set_responseHandlers ∅ c).
Proof.
  intros []. constructor; try assumption. cbn. intros k' h H.
  rewrite lookup_empty in H. discriminate.
Qed.

(** Disarming a timer no handler holds. *)
Lemma Inv_clearTimeout t c :
  Inv c ->
  (forall k h, responseHandlers c !! k = Some h -> h_timeout h <> t) ->
  Inv (clearTimeout t c).
Proof.
  intros HI Hfree. destruct HI.
  constructor; try setoid_rewrite armed_clearTimeout; try assumption.
  - intros k h H. destruct (inv_handler0 k h H) as [m Hm].
    exists m. split; [eapply Hfree; eassumption | exact Hm].
  - intros t1 id m p [_ H]. eapply inv_request0; eassumption.
  - intros t1 cb [_ H]. now apply (inv_pending0 t1).
  - intros t1 t2 cb cb' [_ H1] [_ H2]. eapply inv_unique0; eassumption.
  - intros child l H. cbn. rewrite length_insert. eapply inv_listener_timeout0; eassumption.
  - intros child l cb H [_ H2]. eapply inv_listener_armed0; eassumption.
  - intros child l t1 cb H [_ H2]. eapply inv_listener_only0; eassumption.
Qed.

(** Settling a promise no armed timer is about. *)
Lemma Inv_settle p o c :
  Inv c ->
  (forall t cb, armed c t cb -> timer_promise cb <> p) ->
  Inv (set_promises (settle p o (promises c)) c).
Proof.
  intros HI Hfree. destruct HI.
  constructor; try assumption; cbn.
  - intros t cb H. rewrite settle_lookup_ne by (eapply Hfree; eassumption).
    now apply (inv_pending0 t).
  - intros child l H. rewrite length_settle. eapply inv_listener_promise0; eassumption.
Qed.

(** A new promise. *)
Lemma Inv_new_promise o c : Inv c -> Inv (fst (new_promise o c)).
Proof.
  intros HI. destruct HI.
  constructor; try assumption; cbn.
  - intros t cb H. apply lookup_app_l_Some. now apply (inv_pending0 t).
  - intros child l H. rewrite length_app. cbn.
    pose proof (inv_listener_promise0 child l H). lia.
Qed.

(** A new timer for a new pending promise. *)
Lemma Inv_setTimeout cb0 c :
  Inv c ->
  promises c !! timer_promise cb0 = Some Pending ->
  (forall t cb, armed c t cb -> timer_promise cb <> timer_promise cb0) ->
  (forall child l, children c !! child = Some l ->
                   l_promise l <> timer_promise cb0) ->
  (forall id m p, cb0 = RequestTimeout id m p -> (1 <= id <= requestId c)%Z) ->
  Inv (fst (setTimeout cb0 c)).
Proof.
  intros HI Hp Hfresh Hlisten Hid. destruct HI.
  constructor; try setoid_rewrite armed_setTimeout; try assumption.
  - intros k h H. destruct (inv_handler0 k h H) as [m Hm]. exists m. now left.
  - intros t id m p [H|[_ E]]; [eapply inv_request0; eassumption | apply (Hid id m p); now symmetry].
  - intros t cb [H| [_ ->]]; [now apply (inv_pending0 t) | exact Hp].
  - intros t t' cb cb' [H|[-> ->]] [H'|[-> ->]] E.
    + eapply inv_unique0; eassumption.
    + exfalso. eapply Hfresh; eassumption.
    + exfalso. eapply Hfresh; [eassumption | now symmetry].
    + reflexivity.
  - intros child l H. cbn. rewrite length_app. cbn.
    pose proof (inv_listener_timeout0 child l H). lia.
  - intros child l cb H [H2|[E ->]].
    + eapply inv_listener_armed0; eassumption.
    + pose proof (inv_listener_timeout0 child l H). lia.
  - intros child l t cb H [H2|[-> ->]] E.
    + eapply inv_listener_only0; eassumption.
    + exfalso. eapply Hlisten; [eassumption | now symmetry].
Qed.

Lemma Inv_new_timer cb0 c :
  Inv c ->
  timer_promise cb0 = length (promises c) ->
  (forall id m p, cb0 = RequestTimeout id m p -> (1 <= id <= requestId c)%Z) ->
  Inv (fst (setTimeout cb0 (fst (new_promise Pending c)))).
Proof.
  intros HI Hp Hid.
  apply Inv_setTimeout; [now apply Inv_new_promise | | | | exact Hid].
  - cbn. rewrite Hp. apply list_lookup_middle. reflexivity.
  - intros t cb H. change (armed c t cb) in H.
    apply (inv_pending c HI) in H. apply lookup_lt_Some in H. lia.
  - intros child l H. change (children c !! child = Some l) in H.
    apply (inv_listener_promise c HI) in H. lia.
Qed.

Lemma Inv_set_requestId v c :
  Inv c -> (requestId c <= v)%Z -> Inv (set_requestId v c).
Proof.
  intros [] Hv. constructor; try assumption; cbn; [lia|].
  intros t id m p H. pose proof (inv_request0 t id m p H). lia.
Qed.

Lemma Inv_insert_handler id m t p c :
  Inv c ->
  armed c t (RequestTimeout id m p) ->
  Inv (set_responseHandlers
         (<[id := {| h_timeout := t; h_promise := p |}]> (responseHandlers c)) c).
Proof.
  intros [] Ht. constructor; try assumption. cbn. intros k h H.
  apply lookup_insert_Some in H as [[<- <-]|[_ H]].
  - now exists m.
  - now apply inv_handler0.
Qed.

Lemma Inv_add_listener t p c :
  Inv c ->
  armed c t (StartTimeout p) ->
  (forall child l, children c !! child = Some l -> l_timeout l <> t) ->
  Inv (set_children (children c ++ [{| l_timeout := t; l_promise := p |}]) c).
Proof.
  intros HI Ht Hfresh. pose proof HI as [].
  constructor; try assumption; cbn.
  - intros child l H. apply lookup_snoc_Some in H as [[_ H]|[_ <-]].
    + eapply inv_listener_promise0; eassumption.
    + apply inv_pending0 in Ht. now apply lookup_lt_Some in Ht.
  - intros child l H. apply lookup_snoc_Some in H as [[_ H]|[_ <-]].
    + eapply inv_listener_timeout0; eassumption.
    + now apply armed_lt in Ht.
  - intros child l cb H Hcb. apply lookup_snoc_Some in H as [[_ H]|[_ <-]].
    + eapply inv_listener_armed0; eassumption.
    + unfold armed in *. cbn in *. congruence.
  - intros child l t' cb H Hcb E. apply lookup_snoc_Some in H as [[_ H]|[_ <-]].
    + eapply inv_listener_only0; eassumption.
    + cbn in *. eapply inv_unique0; eassumption.
  - intros child child' l l' H H' E.
    apply lookup_snoc_Some in H as [[Hlt H]|[-> <-]];
      apply lookup_snoc_Some in H' as [[Hlt' H']|[-> <-]].
    + eapply inv_children0; eassumption.
    + exfalso. eapply Hfresh; eassumption.
    + exfalso. eapply Hfresh; [eassumption | now symmetry].
    + reflexivity.
Qed.

(** *** The events keep the invariant *)

Lemma handler_timeout_unique c k k' h h' :
  Inv c ->
  responseHandlers c !! k = Some h -> responseHandlers c !! k' = Some h' ->
  h_timeout h = h_timeout h' -> k = k'.
Proof.
  intros HI H H' E.
  destruct (inv_handler c HI k h H) as [m Hm].
  destruct (inv_handler c HI k' h' H') as [m' Hm'].
  unfold armed in *. rewrite E in Hm. congruence.
Qed.

Lemma Inv_run_handler c k h response :
  Inv c -> responseHandlers c !! k = Some h ->
  Inv (run_handler h response
         (set_responseHandlers (delete k (responseHandlers c)) c)).
Proof.
  intros HI Hk. unfold run_handler, resolve.
  destruct (inv_handler c HI k h Hk) as [m Hm].
  apply Inv_settle.
  - apply Inv_clearTimeout; [now apply Inv_delete|].
    cbn. intros k' h' H' E. apply lookup_delete_Some in H' as [Hne H'].
    apply Hne. symmetry. eapply handler_timeout_unique; eassumption.
  - intros t cb H E. apply armed_clearTimeout in H as [Hne H].
    change (armed c t cb) in H. apply Hne.
    eapply (inv_unique c HI); [exact H | exact Hm | exact E].
Qed.

Lemma Inv_dispatch c response : Inv c -> Inv (dispatch c response).
Proof.
  intros HI. unfold dispatch.
  destruct (truthy _); [|exact HI].
  destruct (number_key _) as [k|]; [|exact HI].
  destruct (responseHandlers c !! k) as [h|] eqn:Hk; [|exact HI].
  now apply Inv_run_handler.
Qed.

Section Invariant.

Variable parse : jsstring -> option JSValue.
Variable stringify : JSValue -> jsstring.

Lemma Inv_process_line c raw : Inv c -> Inv (process_line parse c raw).
Proof.
  intros HI. unfold process_line.
  destruct (decode parse raw); [now apply Inv_dispatch | exact HI].
Qed.

Lemma Inv_process_lines lines c :
  Inv c -> Inv (fold_left (process_line parse) lines c).
Proof.
  revert c. induction lines as [|l lines IH]; intros c HI; [exact HI|].
  simpl. apply IH. now apply Inv_process_line.
Qed.

Lemma Inv_processOutputBuffer c : Inv c -> Inv (processOutputBuffer parse c).
Proof.
  intros HI. unfold processOutputBuffer. apply Inv_process_lines.
  now apply (Inv_ext c).
Qed.

(** The loop only disarms timers and leaves the children alone. *)
Lemma armed_dispatch c response t cb :
  armed (dispatch c response) t cb -> armed c t cb.
Proof.
  unfold dispatch.
  destruct (truthy _); [|tauto].
  destruct (number_key _) as [k|]; [|tauto].
  destruct (responseHandlers c !! k) as [h|]; [|tauto].
  unfold run_handler, resolve. intros H.
  change (armed (clearTimeout (h_timeout h) c) t cb) in H.
  now apply armed_clearTimeout in H.
Qed.

Lemma armed_process_lines lines c t cb :
  armed (fold_left (process_line parse) lines c) t cb -> armed c t cb.
Proof.
  revert c. induction lines as [|l lines IH]; intros c H; [exact H|].
  simpl in H. apply IH in H. unfold process_line in H.
  destruct (decode parse l); [now apply armed_dispatch in H | exact H].
Qed.

Lemma armed_processOutputBuffer c t cb :
  armed (processOutputBuffer parse c) t cb -> armed c t cb.
Proof. unfold processOutputBuffer. intros H. now apply armed_process_lines in H. Qed.

Lemma children_dispatch c response : children (dispatch c response) = children c.
Proof.
  unfold dispatch.
  destruct (truthy _); [|reflexivity].
  destruct (number_key _) as [k|]; [|reflexivity].
  destruct (responseHandlers c !! k); reflexivity.
Qed.

Lemma children_process_lines lines c :
  children (fold_left (process_line parse) lines c) = children c.
Proof.
  revert c. induction lines as [|l lines IH]; intros c; [reflexivity|].
  simpl. rewrite IH. unfold process_line.
  destruct (decode parse l); [apply children_dispatch | reflexivity].
Qed.

Lemma children_processOutputBuffer c :
  children (processOutputBuffer parse c) = children c.
Proof. unfold processOutputBuffer. now rewrite children_process_lines. Qed.

Lemma cleanup_with_server c child :
  server c = Some child ->
  fst (cleanup c) =
  fst (setTimeout (CleanupWait (length (promises c)))
         (fst (new_promise Pending
                 (set_responseHandlers ∅
                    (set_serverReady false (set_server None c)))))).
Proof. intros H. unfold cleanup. rewrite H. reflexivity. Qed.

Lemma cleanup_without_server c :
  server c = None -> cleanup c = new_promise (Resolved JUndefined) c.
Proof. intros H. unfold cleanup. now rewrite H. Qed.

Lemma Inv_cleanup c : Inv c -> Inv (fst (cleanup c)).
Proof.
  intros HI. destruct (server c) as [child|] eqn:Hs.
  - rewrite (cleanup_with_server c child Hs).
    apply Inv_new_timer; [| reflexivity | discriminate].
    apply Inv_clear_handlers. now apply (Inv_ext c).
  - rewrite (cleanup_without_server c Hs). now apply Inv_new_promise.
Qed.

Lemma armed_cleanup c t cb :
  armed (fst (cleanup c)) t cb ->
  armed c t cb \/ timer_promise cb = length (promises c).
Proof.
  destruct (server c) as [child|] eqn:Hs.
  - rewrite (cleanup_with_server c child Hs). intros H.
    apply armed_setTimeout in H as [H|[_ ->]]; [now left | now right].
  - rewrite (cleanup_without_server c Hs). now left.
Qed.

Lemma Inv_start c : Inv c -> Inv (fst (start c)).
Proof.
  intros HI. unfold start. cbn.
  set (p := length (promises c)). set (t := length (timers c)).
  pose (c3 := fst (setTimeout (StartTimeout p)
                     (fst (new_promise Pending
                             (set_server (Some (length (children c))) c))))).
  assert (Inv c3) as HI3.
  { apply Inv_new_timer; [now apply (Inv_ext c) | reflexivity | discriminate]. }
  apply (Inv_add_listener t p c3 HI3).
  - apply armed_setTimeout. right. split; reflexivity.
  - intros child l H. change (children c !! child = Some l) in H.
    apply (inv_listener_timeout c HI) in H. unfold t. lia.
Qed.

Lemma Inv_on_stdout_data child output c :
  Inv c -> Inv (on_stdout_data parse child output c).
Proof.
  intros HI. unfold on_stdout_data.
  destruct (children c !! child) as [l|] eqn:Hl; [|exact HI].
  apply Inv_processOutputBuffer.
  destruct (includes READY output); [|now apply (Inv_ext c)].
  set (c1 := set_serverReady true
               (set_outputBuffer (outputBuffer c ++ output) c)).
  assert (Inv c1) as HI1 by now apply (Inv_ext c).
  assert (Inv (clearTimeout (l_timeout l) c1)) as HI3.
  { apply Inv_clearTimeout; [exact HI1|].
    intros k h H E. destruct (inv_handler c1 HI1 k h H) as [m Hm].
    rewrite E in Hm.
    apply (inv_listener_armed c1 HI1 child l) in Hm; [discriminate | exact Hl]. }
  unfold resolve. apply Inv_settle; [now apply Inv_processOutputBuffer|].
  intros t cb H E. apply armed_processOutputBuffer in H.
  apply armed_clearTimeout in H as [Hne H]. apply Hne.
  eapply (inv_listener_only c1 HI1); eassumption.
Qed.

Lemma Inv_on_error child message c :
  Inv c -> Inv (on_error child message c).
Proof.
  intros HI. unfold on_error.
  destruct (children c !! child) as [l|] eqn:Hl; [|exact HI].
  unfold reject. apply Inv_settle.
  - apply Inv_clearTimeout; [exact HI|].
    intros k h H E. destruct (inv_handler c HI k h H) as [m Hm].
    rewrite E in Hm.
    apply (inv_listener_armed c HI child l) in Hm; [discriminate | exact Hl].
  - intros t cb H E. apply armed_clearTimeout in H as [Hne H]. apply Hne.
    eapply (inv_listener_only c HI); eassumption.
Qed.

Lemma Inv_fire_timer t c : Inv c -> Inv (fire_timer t c).
Proof.
  intros HI. unfold fire_timer.
  destruct (timers c !! t) as [[cb|]|] eqn:Ht; try exact HI.
  change (armed c t cb) in Ht.
  assert (forall t' cb', armed (clearTimeout t c) t' cb' ->
                         timer_promise cb' <> timer_promise cb) as Hothers.
  { intros t' cb' H E. apply armed_clearTimeout in H as [Hne H]. apply Hne.
    eapply (inv_unique c HI); eassumption. }
  destruct cb as [p|id m p|p]; unfold reject, resolve.
  - assert (Inv (clearTimeout t c)) as HI1.
    { apply Inv_clearTimeout; [exact HI|].
      intros k h H E. destruct (inv_handler c HI k h H) as [m Hm].
      rewrite E in Hm. unfold armed in *. congruence. }
    apply Inv_settle; [now apply Inv_cleanup|].
    intros t' cb' H E. apply armed_cleanup in H as [H|H].
    + now apply (Hothers t' cb').
    + apply (inv_pending c HI) in Ht. apply lookup_lt_Some in Ht.
      cbn in *. lia.
  - change (set_responseHandlers
              (delete id (responseHandlers (clearTimeout t c)))
              (clearTimeout t c))
      with (clearTimeout t
              (set_responseHandlers (delete id (responseHandlers c)) c)).
    apply Inv_settle.
    + apply Inv_clearTimeout; [now apply Inv_delete|].
      cbn. intros k h H E. apply lookup_delete_Some in H as [Hne H].
      destruct (inv_handler c HI k h H) as [m' Hm'].
      rewrite E in Hm'. unfold armed in *. congruence.
    + exact Hothers.
  - apply Inv_settle; [|exact Hothers].
    apply Inv_clearTimeout; [exact HI|].
    intros k h H E. destruct (inv_handler c HI k h H) as [m Hm].
    rewrite E in Hm. unfold armed in *. congruence.
Qed.

Lemma sendRequest_ready method params c child :
  serverReady c = true -> server c = Some child ->
  sendRequest stringify method params c =
  (let id := (requestId c + 1)%Z in
   let p := length (promises c) in
   let t := length (timers c) in
   let c3 := fst (setTimeout (RequestTimeout id method p)
                    (fst (new_promise Pending (set_requestId id c)))) in
   let c4 := set_responseHandlers
               (<[id := {| h_timeout := t; h_promise := p |}]>
                  (responseHandlers c)) c3 in
   (set_stdin
      (stdin c ++
         [(child,
           stringify
             (JObj [(lit "jsonrpc", JStr (lit "2.0")); (lit "id", JInt id);
                    (lit "method", JStr method);
                    (lit "params",
                     match params with JUndefined => JObj [] | _ => params end)])
             ++ [nl])]) c4, p)).
Proof. intros Hr Hs. unfold sendRequest. rewrite Hr, Hs. reflexivity. Qed.

Lemma sendRequest_not_ready method params c :
  serverReady c = false \/ server c = None ->
  sendRequest stringify method params c =
  new_promise (Rejected (lit "Server not ready")) c.
Proof.
  intros H. unfold sendRequest.
  destruct (serverReady c), (server c); try reflexivity;
    destruct H; discriminate.
Qed.

Lemma Inv_sendRequest method params c :
  Inv c -> Inv (fst (sendRequest stringify method params c)).
Proof.
  intros HI.
  destruct (serverReady c) eqn:Hr; [destruct (server c) as [child|] eqn:Hs|].
  - rewrite (sendRequest_ready method params c child Hr Hs). cbn zeta.
    unfold fst at 1.
    match goal with
    | |- Inv (set_stdin _ ?x) => apply (Inv_ext x); [|reflexivity..]
    end.
    match goal with
    | |- Inv (set_responseHandlers _ ?c3) =>
        apply (Inv_insert_handler (requestId c + 1) method
                 (length (timers c)) (length (promises c)) c3)
    end.
    + apply Inv_new_timer; [| reflexivity |].
      * apply Inv_set_requestId; [exact HI | lia].
      * intros id m p [= <- _ _]. cbn. pose proof (inv_requestId c HI). lia.
    + apply armed_setTimeout. right. split; reflexivity.
  - rewrite sendRequest_not_ready by now right. now apply Inv_new_promise.
  - rewrite sendRequest_not_ready by now left. now apply Inv_new_promise.
Qed.

Lemma Inv_step c e : Inv c -> Inv (step parse stringify c e).
Proof.
  intros HI. destruct e; cbn.
  - now apply Inv_start.
  - now apply Inv_on_stdout_data.
  - now apply Inv_on_error.
  - now apply Inv_fire_timer.
  - now apply Inv_sendRequest.
  - now apply Inv_cleanup.
Qed.

Lemma Inv_run events c : Inv c -> Inv (run parse stringify events c).
Proof.
  revert c. induction events as [|e events IH]; intros c HI; [exact HI|].
  cbn. apply IH. now apply Inv_step.
Qed.

Lemma Inv_reachable c : reachable parse stringify c -> Inv c.
Proof. intros [events ->]. apply Inv_run, Inv_new_client. Qed.

End Invariant.

(** ** What the events leave alone *)

Lemma kept_refl ps : kept ps ps.
Proof. intros p x H _. exact H. Qed.

Lemma kept_trans ps1 ps2 ps3 : kept ps1 ps2 -> kept ps2 ps3 -> kept ps1 ps3.
Proof. intros H12 H23 p x H Hx. apply H23; [apply H12|]; assumption. Qed.

Lemma kept_settle p o ps : kept ps (settle p o ps).
Proof. intros p' x H Hx. now apply settle_settled. Qed.

Lemma kept_snoc o ps : kept ps (ps ++ [o]).
Proof. intros p x H _. now apply lookup_app_l_Some. Qed.

Lemma kept_dispatch c response : kept (promises c) (promises (dispatch c response)).
Proof.
  unfold dispatch.
  destruct (truthy _); [|apply kept_refl].
  destruct (number_key _) as [k|]; [|apply kept_refl].
  destruct (responseHandlers c !! k) as [h|]; [|apply kept_refl].
  apply kept_settle.
Qed.

(** A message is passed to a handler only if one is registered under its
    identifier; otherwise nothing changes. *)
Lemma dispatch_unregistered c response k :
  number_key (get "id" response) = Some k ->
  responseHandlers c !! k = None ->
  dispatch c response = c.
Proof.
  intros Hk Hnone. unfold dispatch. rewrite Hk, Hnone.
  now destruct (truthy _).
Qed.

Lemma truthy_JInt k : truthy (JInt k) = negb (Z.eqb k 0).
Proof. reflexivity. Qed.

Lemma number_key_JInt k : number_key (JInt k) = Some k.
Proof.
  unfold number_key, JInt, inject_Z. cbn.
  rewrite Z.mod_1_r. cbn. now rewrite Z.div_1_r.
Qed.

Lemma dispatch_registered c response k h :
  get "id" response = JInt k -> k <> 0%Z ->
  responseHandlers c !! k = Some h ->
  dispatch c response =
  run_handler h response
    (set_responseHandlers (delete k (responseHandlers c)) c).
Proof.
  intros Hid Hk Hh. unfold dispatch.
  rewrite Hid, truthy_JInt, number_key_JInt, Hh.
  apply Z.eqb_neq in Hk. now rewrite Hk.
Qed.

(** The table after a message: an entry is there only if it was. *)
Lemma handlers_dispatch c response k h :
  responseHandlers (dispatch c response) !! k = Some h ->
  responseHandlers c !! k = Some h.
Proof.
  unfold dispatch.
  destruct (truthy _); [|tauto].
  destruct (number_key _) as [k'|]; [|tauto].
  destruct (responseHandlers c !! k') as [h'|]; [|tauto].
  cbn. intros H. now apply lookup_delete_Some in H.
Qed.

Lemma requestId_dispatch c response : requestId (dispatch c response) = requestId c.
Proof.
  unfold dispatch.
  destruct (truthy _); [|reflexivity].
  destruct (number_key _) as [k'|]; [|reflexivity].
  destruct (responseHandlers c !! k'); reflexivity.
Qed.

Lemma serverReady_dispatch c response :
  serverReady (dispatch c response) = serverReady c.
Proof.
  unfold dispatch.
  destruct (truthy _); [|reflexivity].
  destruct (number_key _) as [k'|]; [|reflexivity].
  destruct (responseHandlers c !! k'); reflexivity.
Qed.

Lemma server_dispatch c response : server (dispatch c response) = server c.
Proof.
  unfold dispatch.
  destruct (truthy _); [|reflexivity].
  destruct (number_key _) as [k'|]; [|reflexivity].
  destruct (responseHandlers c !! k'); reflexivity.
Qed.

Lemma stdin_dispatch c response : stdin (dispatch c response) = stdin c.
Proof.
  unfold dispatch.
  destruct (truthy _); [|reflexivity].
  destruct (number_key _) as [k'|]; [|reflexivity].
  destruct (responseHandlers c !! k'); reflexivity.
Qed.

(** A timer that is no request timer stays armed through a message. *)
Lemma armed_kept_dispatch c response t cb :
  Inv c -> armed c t cb ->
  (forall id m p, cb <> RequestTimeout id m p) ->
  armed (dispatch c response) t cb.
Proof.
  intros HI Ht Hcb. unfold dispatch.
  destruct (truthy _); [|exact Ht].
  destruct (number_key _) as [k|]; [|exact Ht].
  destruct (responseHandlers c !! k) as [h|] eqn:Hh; [|exact Ht].
  unfold run_handler, resolve.
  change (armed (clearTimeout (h_timeout h) c) t cb).
  apply armed_clearTimeout. split; [|exact Ht].
  intros ->. destruct (inv_handler c HI k h Hh) as [m Hm].
  unfold armed in *. rewrite Ht in Hm. injection Hm as Hm.
  now apply (Hcb k m (h_promise h)).
Qed.

Section Monotone.

Variable parse : jsstring -> option JSValue.
Variable stringify : JSValue -> jsstring.

(** Any field that a message leaves alone is left alone by the loop. *)
Lemma field_process_lines {A} (field : MCPTestClient -> A) :
  (forall c response, field (dispatch c response) = field c) ->
  forall lines c,
    field (fold_left (process_line parse) lines c) = field c.
Proof.
  intros Hd lines. induction lines as [|l lines IH]; intros c; [reflexivity|].
  simpl. rewrite IH. unfold process_line.
  destruct (decode parse l); [apply Hd | reflexivity].
Qed.

Lemma field_processOutputBuffer {A} (field : MCPTestClient -> A) :
  (forall c response, field (dispatch c response) = field c) ->
  (forall b c, field (set_outputBuffer b c) = field c) ->
  forall c, field (processOutputBuffer parse c) = field c.
Proof.
  intros Hd Hb c. unfold processOutputBuffer.
  now rewrite field_process_lines, Hb.
Qed.

Lemma serverReady_processOutputBuffer c :
  serverReady (processOutputBuffer parse c) = serverReady c.
Proof. now apply field_processOutputBuffer; [apply serverReady_dispatch|]. Qed.

Lemma server_processOutputBuffer c :
  server (processOutputBuffer parse c) = server c.
Proof. now apply field_processOutputBuffer; [apply server_dispatch|]. Qed.


Lemma requestId_processOutputBuffer c :
  requestId (processOutputBuffer parse c) = requestId c.
Proof. now apply field_processOutputBuffer; [apply requestId_dispatch|]. Qed.

Lemma kept_process_lines lines c :
  kept (promises c) (promises (fold_left (process_line parse) lines c)).
Proof.
  revert c. induction lines as [|l lines IH]; intros c; [apply kept_refl|].
  simpl. eapply kept_trans; [|apply IH]. unfold process_line.
  destruct (decode parse l); [apply kept_dispatch | apply kept_refl].
Qed.

Lemma kept_processOutputBuffer c :
  kept (promises c) (promises (processOutputBuffer parse c)).
Proof. unfold processOutputBuffer. apply (kept_process_lines _ (set_outputBuffer _ c)). Qed.

Lemma handlers_process_lines lines c k h :
  responseHandlers (fold_left (process_line parse) lines c) !! k = Some h ->
  responseHandlers c !! k = Some h.
Proof.
  revert c. induction lines as [|l lines IH]; intros c H; [exact H|].
  simpl in H. apply IH in H. unfold process_line in H.
  destruct (decode parse l); [now apply handlers_dispatch in H | exact H].
Qed.

Lemma handlers_processOutputBuffer c k h :
  responseHandlers (processOutputBuffer parse c) !! k = Some h ->
  responseHandlers c !! k = Some h.
Proof. unfold processOutputBuffer. intros H. now apply handlers_process_lines in H. Qed.

Lemma armed_kept_process_lines lines c t cb :
  Inv c -> armed c t cb ->
  (forall id m p, cb <> RequestTimeout id m p) ->
  armed (fold_left (process_line parse) lines c) t cb.
Proof.
  revert c. induction lines as [|l lines IH]; intros c HI Ht Hcb; [exact Ht|].
  simpl. apply IH; [now apply Inv_process_line | | exact Hcb].
  unfold process_line.
  destruct (decode parse l); [now apply armed_kept_dispatch | exact Ht].
Qed.

Lemma armed_kept_processOutputBuffer c t cb :
  Inv c -> armed c t cb ->
  (forall id m p, cb <> RequestTimeout id m p) ->
  armed (processOutputBuffer parse c) t cb.
Proof.
  intros HI Ht Hcb. unfold processOutputBuffer.
  apply armed_kept_process_lines; [now apply (Inv_ext c) | exact Ht | exact Hcb].
Qed.

Lemma kept_cleanup c : kept (promises c) (promises (fst (cleanup c))).
Proof.
  unfold cleanup. destruct (server c); cbn; apply kept_snoc.
Qed.

Lemma kept_step c e : kept (promises c) (promises (step parse stringify c e)).
Proof.
  destruct e as [|child output|child message|t|method params|]; cbn.
  - apply kept_snoc.
  - unfold on_stdout_data.
    destruct (children c !! child) as [l|]; [|apply kept_refl].
    eapply kept_trans; [|apply kept_processOutputBuffer].
    destruct (includes READY output); [|apply kept_refl].
    unfold resolve. cbn.
    eapply kept_trans; [|apply kept_settle].
    apply (kept_processOutputBuffer
             (clearTimeout (l_timeout l)
                (set_serverReady true
                   (set_outputBuffer (outputBuffer c ++ output) c)))).
  - unfold on_error. destruct (children c !! child) as [l|]; [|apply kept_refl].
    apply kept_settle.
  - unfold fire_timer.
    destruct (timers c !! t) as [[[p|id m p|p]|]|]; try apply kept_refl.
    + unfold reject. cbn. eapply kept_trans; [|apply kept_settle].
      apply (kept_cleanup (clearTimeout t c)).
    + apply kept_settle.
    + apply kept_settle.
  - unfold sendRequest. destruct (serverReady c), (server c); cbn; apply kept_snoc.
  - apply kept_cleanup.
Qed.

Lemma kept_run events c : kept (promises c) (promises (run parse stringify events c)).
Proof.
  revert c. induction events as [|e events IH]; intros c; [apply kept_refl|].
  cbn. eapply kept_trans; [apply kept_step | apply IH].
Qed.

(** The counter never goes down, and an identifier that was allocated and
    is not in the table never comes back into it. *)
Lemma requestId_step c e :
  (requestId c <= requestId (step parse stringify c e))%Z.
Proof.
  destruct e as [|child output|child message|t|method params|]; cbn.
  - lia.
  - unfold on_stdout_data. destruct (children c !! child) as [l|]; [|lia].
    rewrite requestId_processOutputBuffer.
    destruct (includes READY output); [|cbn; lia].
    unfold resolve.
    match goal with
    | |- context [requestId (set_promises _ ?x)] =>
        change (requestId (set_promises _ x)) with (requestId x)
    end.
    rewrite requestId_processOutputBuffer. cbn. lia.
  - unfold on_error. destruct (children c !! child); cbn; lia.
  - unfold fire_timer.
    destruct (timers c !! t) as [[[p|id m p|p]|]|]; cbn; try lia.
    unfold cleanup. destruct (server _); cbn; lia.
  - unfold sendRequest. destruct (serverReady c), (server c); cbn; lia.
  - unfold cleanup. destruct (server c); cbn; lia.
Qed.

Lemma absent_step c e id :
  (id <= requestId c)%Z -> responseHandlers c !! id = None ->
  responseHandlers (step parse stringify c e) !! id = None.
Proof.
  intros Hid Hnone.
  destruct e as [|child output|child message|t|method params|]; cbn.
  - exact Hnone.
  - unfold on_stdout_data. destruct (children c !! child) as [l|]; [|exact Hnone].
    apply eq_None_not_Some. intros [h Hh].
    apply handlers_processOutputBuffer in Hh.
    destruct (includes READY output); [|cbn in Hh; congruence].
    unfold resolve in Hh.
    match type of Hh with
    | context [responseHandlers (set_promises _ ?x)] =>
        change (responseHandlers (set_promises _ x))
          with (responseHandlers x) in Hh
    end.
    apply handlers_processOutputBuffer in Hh. cbn in Hh. congruence.
  - unfold on_error. destruct (children c !! child); exact Hnone.
  - unfold fire_timer.
    destruct (timers c !! t) as [[[p|id' m p|p]|]|]; cbn; try exact Hnone.
    + unfold cleanup. destruct (server _); cbn; [apply lookup_empty | exact Hnone].
    + apply lookup_delete_None. now right.
  - unfold sendRequest. destruct (serverReady c), (server c); cbn; try exact Hnone.
    rewrite lookup_insert_ne by lia. exact Hnone.
  - unfold cleanup. destruct (server c); cbn; [apply lookup_empty | exact Hnone].
Qed.

Lemma absent_run events : forall c id,
  (id <= requestId c)%Z -> responseHandlers c !! id = None ->
  responseHandlers (run parse stringify events c) !! id = None.
Proof.
  induction events as [|e events IH]; intros c id Hid Hnone; [exact Hnone|].
  cbn. apply IH; [|now apply absent_step].
  pose proof (requestId_step c e). lia.
Qed.

End Monotone.

(** ** Responses are matched to calls by identifier *)

Lemma number_key_truthy v k :
  number_key v = Some k -> k <> 0%Z -> truthy v = true.
Proof.
  destruct v as [| | |q| | |]; try discriminate. cbn.
  destruct (Z.eqb (Qnum q mod Z.pos (Qden q)) 0); [|discriminate].
  intros [= <-] Hk. apply negb_true_iff, Z.eqb_neq.
  intros E. apply Hk. rewrite E. reflexivity.
Qed.

Lemma handler_promise_unique c k k' h h' :
  Inv c ->
  responseHandlers c !! k = Some h -> responseHandlers c !! k' = Some h' ->
  h_promise h = h_promise h' -> k = k'.
Proof.
  intros HI H H' E.
  destruct (inv_handler c HI k h H) as [m Hm].
  destruct (inv_handler c HI k' h' H') as [m' Hm'].
  assert (h_timeout h = h_timeout h') as Et
    by (eapply (inv_unique c HI); [exact Hm | exact Hm' | exact E]).
  eapply handler_timeout_unique; eassumption.
Qed.

(** A message for another identifier leaves an outstanding call as it is. *)
Lemma awaiting_dispatch_other c k p response :
  Inv c -> awaiting c k p ->
  number_key (get "id" response) <> Some k ->
  awaiting (dispatch c response) k p.
Proof.
  intros HI (Hk & [t Ht] & Hp) Hne. unfold dispatch.
  destruct (truthy _); [|now repeat split; eauto].
  destruct (number_key _) as [k'|] eqn:Hk'; [|now repeat split; eauto].
  destruct (responseHandlers c !! k') as [h'|] eqn:Hh'; [|now repeat split; eauto].
  assert (k' <> k) as Hkk by congruence.
  split; [exact Hk|]. split.
  - exists t. cbn. rewrite lookup_delete_ne by exact Hkk. exact Ht.
  - cbn. rewrite settle_lookup_ne; [exact Hp|].
    intros E. apply Hkk.
    apply (handler_promise_unique c k' k h' _ HI Hh' Ht). now symmetry.
Qed.

(** A message with the identifier of an outstanding call resolves it. *)
Lemma awaiting_dispatch_match c k p response :
  awaiting c k p -> (1 <= k)%Z -> get "id" response = JInt k ->
  promises (dispatch c response) !! p = Some (Resolved response).
Proof.
  intros (Hk & [t Ht] & Hp) Hpos Hid.
  rewrite (dispatch_registered c response k _ Hid ltac:(lia) Ht).
  cbn. now apply settle_pending.
Qed.

Lemma kept_dispatches messages c :
  kept (promises c) (promises (fold_left dispatch messages c)).
Proof.
  revert c. induction messages as [|m messages IH]; intros c; [apply kept_refl|].
  simpl. eapply kept_trans; [apply kept_dispatch | apply IH].
Qed.

Lemma Inv_dispatches messages c : Inv c -> Inv (fold_left dispatch messages c).
Proof.
  revert c. induction messages as [|m messages IH]; intros c HI; [exact HI|].
  simpl. apply IH. now apply Inv_dispatch.
Qed.

(** Delivery in any order: the call is resolved with the one message that
    bears its identifier, wherever in the sequence that message is. *)
Lemma deliver_awaiting delivered : forall c k p response,
  Inv c -> awaiting c k p -> (1 <= k)%Z ->
  get "id" response = JInt k ->
  In response delivered ->
  (forall r, In r delivered -> number_key (get "id" r) = Some k -> r = response) ->
  promises (fold_left dispatch delivered c) !! p = Some (Resolved response).
Proof.
  induction delivered as [|r0 delivered IH];
    intros c k p response HI Haw Hk Hid Hin Honly; [destruct Hin|].
  simpl.
  destruct (decide (number_key (get "id" r0) = Some k)) as [E|Hne].
  - assert (r0 = response) as -> by (apply Honly; [now left | exact E]).
    apply (kept_dispatches delivered); [|discriminate].
    now apply (awaiting_dispatch_match c k).
  - apply (IH (dispatch c r0) k p response); try assumption.
    + now apply Inv_dispatch.
    + now apply awaiting_dispatch_other.
    + destruct Hin as [->|Hin]; [|exact Hin].
      exfalso. apply Hne. rewrite Hid. apply number_key_JInt.
    + intros r Hr. apply Honly. now right.
Qed.

Section Correlation.

Variable parse : jsstring -> option JSValue.
Variable stringify : JSValue -> jsstring.

Lemma awaiting_sendRequest method params c k p :
  awaiting c k p ->
  awaiting (fst (sendRequest stringify method params c)) k p.
Proof.
  intros (Hk & [t Ht] & Hp). unfold sendRequest, awaiting.
  destruct (serverReady c), (server c); cbn.
  2-4: (split; [exact Hk|]; split; [now exists t|];
        now apply lookup_app_l_Some).
  split; [lia|]. split.
  - exists t. rewrite lookup_insert_ne by lia. exact Ht.
  - now apply lookup_app_l_Some.
Qed.

Lemma sendRequest_awaiting method params c child :
  serverReady c = true -> server c = Some child ->
  awaiting (fst (sendRequest stringify method params c))
    (requestId c + 1) (snd (sendRequest stringify method params c)).
Proof.
  intros Hr Hs. rewrite (sendRequest_ready stringify method params c child Hr Hs).
  unfold awaiting. cbn. split; [lia|]. split.
  - eexists. apply lookup_insert_eq.
  - apply list_lookup_middle. reflexivity.
Qed.

Lemma sendRequest_fields method params c child :
  serverReady c = true -> server c = Some child ->
  let c1 := fst (sendRequest stringify method params c) in
  serverReady c1 = true /\ server c1 = Some child /\
  requestId c1 = (requestId c + 1)%Z /\ outputBuffer c1 = outputBuffer c.
Proof.
  intros Hr Hs. rewrite (sendRequest_ready stringify method params c child Hr Hs).
  cbn. auto.
Qed.

Lemma awaiting_sendRequests calls : forall c k p,
  awaiting c k p -> awaiting (fst (sendRequests stringify calls c)) k p.
Proof.
  induction calls as [|[method params] calls IH]; intros c k p H; [exact H|].
  cbn. pose proof (awaiting_sendRequest method params c k p H) as H1.
  destruct (sendRequest stringify method params c) as [c1 p1]. cbn in H1.
  specialize (IH c1 k p H1).
  destruct (sendRequests stringify calls c1) as [c2 ps]. exact IH.
Qed.

(** After the calls are issued, call [i] is outstanding under the
    identifier [requestId c + 1 + i]. *)
Lemma sendRequests_awaiting calls : forall c child i p,
  serverReady c = true -> server c = Some child ->
  snd (sendRequests stringify calls c) !! i = Some p ->
  awaiting (fst (sendRequests stringify calls c))
    (requestId c + 1 + Z.of_nat i) p.
Proof.
  induction calls as [|[method params] calls IH];
    intros c child i p Hr Hs Hi; [discriminate|].
  cbn in *.
  pose proof (sendRequest_awaiting method params c child Hr Hs) as Hnew.
  pose proof (sendRequest_fields method params c child Hr Hs)
    as (Hr1 & Hs1 & Hid1 & _).
  destruct (sendRequest stringify method params c) as [c1 p1]. cbn in *.
  pose proof (awaiting_sendRequests calls c1) as Hold.
  specialize (IH c1 child).
  destruct (sendRequests stringify calls c1) as [c2 ps]. cbn in *.
  destruct i as [|i]; cbn in Hi.
  - injection Hi as <-. rewrite Z.add_0_r. now apply Hold.
  - specialize (IH i p Hr1 Hs1 Hi). rewrite Hid1 in IH.
    replace (requestId c + 1 + Z.of_nat (S i))%Z
      with (requestId c + 1 + 1 + Z.of_nat i)%Z by lia.
    exact IH.
Qed.

Lemma Inv_sendRequests calls : forall c,
  Inv c -> Inv (fst (sendRequests stringify calls c)).
Proof.
  induction calls as [|[method params] calls IH]; intros c HI; [exact HI|].
  cbn. pose proof (Inv_sendRequest stringify method params c HI) as H1.
  destruct (sendRequest stringify method params c) as [c1 p1].
  specialize (IH c1 H1).
  destruct (sendRequests stringify calls c1) as [c2 ps]. exact IH.
Qed.

Lemma outputBuffer_sendRequests calls : forall c,
  outputBuffer (fst (sendRequests stringify calls c)) = outputBuffer c.
Proof.
  induction calls as [|[method params] calls IH]; intros c; [reflexivity|].
  cbn.
  assert (outputBuffer (fst (sendRequest stringify method params c))
          = outputBuffer c) as H1
    by (unfold sendRequest; destruct (serverReady c), (server c); reflexivity).
  destruct (sendRequest stringify method params c) as [c1 p1].
  specialize (IH c1).
  destruct (sendRequests stringify calls c1) as [c2 ps]. cbn in *. congruence.
Qed.

(** C2.  Issue any number of calls with [sendRequest] from a ready client,
    one after the other; call [i] is registered under the identifier
    [requestId + 1 + i].  Let the responses, one for each call and with the
    identifier of its call, arrive in any order (a permutation), as frames
    cut into chunks in any way.  Then the promise of every call is resolved
    with the response that bears the identifier of that call. *)
Theorem responses_matched_by_id
    (calls : list (jsstring * JSValue))
    (responses delivered : list JSValue)
    (frames chunks : list jsstring)
    (c : MCPTestClient) (child : nat) :
  reachable parse stringify c ->
  serverReady c = true -> server c = Some child -> outputBuffer c = [] ->
  (forall i r, responses !! i = Some r ->
               get "id" r = JInt (requestId c + 1 + Z.of_nat i)) ->
  Permutation delivered responses ->
  Forall newline_free frames ->
  Forall2 (fun f m => decode parse f = Some m) frames delivered ->
  List.concat chunks = frame_bytes frames ->
  let sent := sendRequests stringify calls c in
  let final := fold_left (receive parse) chunks (fst sent) in
  forall i p r,
    snd sent !! i = Some p -> responses !! i = Some r ->
    awaiting (fst sent) (requestId c + 1 + Z.of_nat i) p /\
    promises final !! p = Some (Resolved r).
Proof.
  intros Hreach Hr Hs Hbuf Hids Hperm Hframes Hdecode Hcut sent final i p r Hp Hri.
  pose proof (Inv_reachable parse stringify c Hreach) as HI.
  pose proof (sendRequests_awaiting calls c child i p Hr Hs Hp) as Haw.
  split; [exact Haw|].
  unfold final.
  rewrite (receive_frames parse frames delivered [] chunks); try assumption.
  - cbn.
    apply (deliver_awaiting delivered _ (requestId c + 1 + Z.of_nat i)%Z);
      try assumption.
    + now apply Inv_sendRequests.
    + pose proof (inv_requestId c HI). lia.
    + now apply Hids.
    + apply (Permutation_in r (Permutation_sym Hperm)).
      apply list_elem_of_In, list_elem_of_lookup. now exists i.
    + intros r' Hin Hkey.
      apply (Permutation_in r' Hperm) in Hin.
      apply list_elem_of_In, list_elem_of_lookup in Hin as [j Hj].
      pose proof (Hids j r' Hj) as Hidj.
      rewrite Hidj, number_key_JInt in Hkey.
      assert (j = i) as -> by (injection Hkey; lia).
      congruence.
  - constructor.
  - unfold sent. now rewrite outputBuffer_sendRequests.
  - now rewrite app_nil_r.
Qed.

End Correlation.


Lemma responses_matched_by_id_witness :
  let sent :=
    sendRequests Sample.stringify
      [(lit "tools/list", JUndefined); (lit "tools/call", JObj [])]
      Sample.ready_client in
  let final :=
    fold_left (receive Sample.parse)
      [firstn 5 (Sample.frame 2);
       skipn 5 (Sample.frame 2) ++ [nl] ++ Sample.frame 1 ++ [nl]]
      (fst sent) in
  promises final !! 1 = Some (Resolved (Sample.response 1)) /\
  promises final !! 2 = Some (Resolved (Sample.response 2)).
Proof.
  intros sent final.
  assert (forall i p r,
             snd sent !! i = Some p ->
             [Sample.response 1; Sample.response 2] !! i = Some r ->
             promises final !! p = Some (Resolved r)) as H.
  { intros i p r Hp Hr.
    refine (proj2 (responses_matched_by_id Sample.parse Sample.stringify
                     [(lit "tools/list", JUndefined); (lit "tools/call", JObj [])]
                     [Sample.response 1; Sample.response 2]
                     [Sample.response 2; Sample.response 1]
                     [Sample.frame 2; Sample.frame 1]
                     [firstn 5 (Sample.frame 2);
                      skipn 5 (Sample.frame 2) ++ [nl] ++ Sample.frame 1 ++ [nl]]
                     Sample.ready_client 0
                     _ _ _ _ _ _ _ _ _ i p r Hp Hr)).
    - exists [EvStart; EvData 0 (READY ++ [nl])]. reflexivity.
    - vm_compute. reflexivity.
    - vm_compute. reflexivity.
    - vm_compute. reflexivity.
    - intros [|[|j]] r'; [| |discriminate]; intros [= <-]; vm_compute; reflexivity.
    - apply perm_swap.
    - repeat constructor; vm_compute; discriminate.
    - repeat constructor; vm_compute; reflexivity.
    - vm_compute. reflexivity. }
  split; [apply (H 0) | apply (H 1)]; vm_compute; reflexivity.
Defined.

(** ** Timeouts, late responses and identifiers *)

Section Timeouts.

Variable parse : jsstring -> option JSValue.
Variable stringify : JSValue -> jsstring.

Lemma fire_request_timer c t id method p :
  armed c t (RequestTimeout id method p) ->
  fire_timer t c =
  reject p (lit "Request " ++ method ++ lit " timed out")
    (set_responseHandlers (delete id (responseHandlers c)) (clearTimeout t c)).
Proof. unfold armed, fire_timer. now intros ->. Qed.

(** C5.  When the timer of a call fires while the call is outstanding, the
    call fails with the error ["Request <method> timed out"] and its entry
    leaves the table.  From then on, whatever happens, a response bearing
    that identifier changes nothing, and the promise of the call stays as
    the timeout left it: it cannot be settled a second time. *)
Theorem timeout_then_late_response_dropped
    (c : MCPTestClient) (t : nat) (id : Z) (method : jsstring) (p : nat) :
  reachable parse stringify c ->
  armed c t (RequestTimeout id method p) ->
  let timed_out := Rejected (lit "Request " ++ method ++ lit " timed out") in
  let c' := fire_timer t c in
  promises c' !! p = Some timed_out /\
  responseHandlers c' !! id = None /\
  forall events response,
    number_key (get "id" response) = Some id ->
    let later := run parse stringify events c' in
    dispatch later response = later /\
    responseHandlers later !! id = None /\
    promises later !! p = Some timed_out.
Proof.
  intros Hreach Ht timed_out c'.
  pose proof (Inv_reachable parse stringify c Hreach) as HI.
  assert (promises c' !! p = Some timed_out) as Hp.
  { unfold c'. rewrite (fire_request_timer c t id method p Ht). cbn.
    apply settle_pending. exact (inv_pending c HI t _ Ht). }
  assert (responseHandlers c' !! id = None) as Hnone.
  { unfold c'. rewrite (fire_request_timer c t id method p Ht). cbn.
    apply lookup_delete_eq. }
  assert (id <= requestId c')%Z as Hid.
  { unfold c'. rewrite (fire_request_timer c t id method p Ht). cbn.
    pose proof (inv_request c HI t id method p Ht). lia. }
  split; [exact Hp|]. split; [exact Hnone|].
  intros events response Hkey later.
  assert (responseHandlers later !! id = None) as Hlater
    by now apply absent_run.
  split; [|split].
  - now apply (dispatch_unregistered later response id).
  - exact Hlater.
  - apply (kept_run parse stringify events c'); [exact Hp | discriminate].
Qed.

(** The values of [id] the filter of line 77 refuses. *)
Lemma dispatch_falsy c response :
  truthy (get "id" response) = false -> dispatch c response = c.
Proof. intros H. unfold dispatch. now rewrite H. Qed.

Lemma dispatch_not_number c response :
  number_key (get "id" response) = None -> dispatch c response = c.
Proof. intros H. unfold dispatch. rewrite H. now destruct (truthy _). Qed.

(** C10.  A handler is called only for a message whose [id] is truthy and
    registered: a message whose [id] is absent, [null] or the number 0 is
    dropped and the state stays as it is, and so is one whose [id] is not
    in the table.  No call of the client is hidden by this: in every state
    the client can reach, the keys of the table are at least 1, so each is
    truthy and a message bearing it reaches its handler; [sendRequest]
    allocates [requestId + 1], which is 1 for a new client, is above every
    identifier allocated before, and the counter never goes down. *)
Theorem identifier_filter (c : MCPTestClient) :
  reachable parse stringify c ->
  (forall response,
      get "id" response = JUndefined \/ get "id" response = JNull \/
      get "id" response = JInt 0 ->
      dispatch c response = c) /\
  (forall response,
      dispatch c response <> c ->
      truthy (get "id" response) = true /\
      exists k, number_key (get "id" response) = Some k /\
                is_Some (responseHandlers c !! k)) /\
  (forall k h,
      responseHandlers c !! k = Some h ->
      (1 <= k <= requestId c)%Z /\ truthy (JInt k) = true /\
      forall response,
        get "id" response = JInt k ->
        dispatch c response =
        run_handler h response
          (set_responseHandlers (delete k (responseHandlers c)) c)) /\
  (forall t id m p,
      armed c t (RequestTimeout id m p) -> (1 <= id <= requestId c)%Z) /\
  (forall method params child,
      serverReady c = true -> server c = Some child ->
      let sent := sendRequest stringify method params c in
      requestId (fst sent) = (requestId c + 1)%Z /\
      (1 <= requestId (fst sent))%Z /\
      awaiting (fst sent) (requestId c + 1) (snd sent)) /\
  (forall events,
      (requestId c <= requestId (run parse stringify events c))%Z) /\
  requestId new_client = 0%Z.
Proof.
  intros Hreach.
  pose proof (Inv_reachable parse stringify c Hreach) as HI.
  repeat apply conj.
  - intros response [H|[H|H]]; apply dispatch_falsy; now rewrite H.
  - intros response Hfire. unfold dispatch in Hfire.
    destruct (truthy _); [|congruence]. split; [reflexivity|].
    destruct (number_key _) as [k|]; [|congruence].
    exists k. split; [reflexivity|].
    destruct (responseHandlers c !! k); [eauto | congruence].
  - intros k h Hh. destruct (inv_handler c HI k h Hh) as [m Hm].
    pose proof (inv_request c HI _ _ _ _ Hm) as Hk.
    split; [exact Hk|]. split.
    + rewrite truthy_JInt. apply negb_true_iff, Z.eqb_neq. lia.
    + intros response Hid. apply dispatch_registered; [exact Hid | lia | exact Hh].
  - intros t id m p. apply (inv_request c HI).
  - intros method params child Hr Hs sent.
    pose proof (sendRequest_fields stringify method params c child Hr Hs)
      as (_ & _ & Hid & _).
    pose proof (inv_requestId c HI).
    split; [exact Hid|]. split; [unfold sent; lia|].
    now apply (sendRequest_awaiting stringify method params c child).
  - induction events as [|e events IH] using rev_ind; [cbn; lia|].
    unfold run in *. rewrite fold_left_app. cbn.
    pose proof (requestId_step parse stringify
                  (fold_left (step parse stringify) events c) e). lia.
  - reflexivity.
Qed.

End Timeouts.

Lemma timeout_then_late_response_dropped_witness :
  let c' := fire_timer 1 Sample.busy_client in
  promises c' !! 1 =
    Some (Rejected (lit "Request " ++ lit "tools/list" ++ lit " timed out")) /\
  responseHandlers c' !! 1%Z = None /\
  forall events response,
    number_key (get "id" response) = Some 1%Z ->
    let later := run Sample.parse Sample.stringify events c' in
    dispatch later response = later /\
    responseHandlers later !! 1%Z = None /\
    promises later !! 1 =
      Some (Rejected (lit "Request " ++ lit "tools/list" ++ lit " timed out")).
Proof.
  apply (timeout_then_late_response_dropped Sample.parse Sample.stringify
           Sample.busy_client 1 1%Z (lit "tools/list") 1).
  - exists Sample.two_calls. reflexivity.
  - vm_compute. reflexivity.
Defined.

Lemma identifier_filter_witness :
  dispatch Sample.busy_client (JObj [(lit "id", JInt 0)]) = Sample.busy_client.
Proof.
  refine (proj1 (identifier_filter Sample.parse Sample.stringify
                   Sample.busy_client _) (JObj [(lit "id", JInt 0)]) _).
  - exists Sample.two_calls. reflexivity.
  - right. right. vm_compute. reflexivity.
Defined.

(** ** Closing the client, and readiness *)

Section Lifecycle.

Variable parse : jsstring -> option JSValue.
Variable stringify : JSValue -> jsstring.

Lemma armed_kept_cleanup c t cb :
  armed c t cb -> armed (fst (cleanup c)) t cb.
Proof.
  intros H. destruct (server c) as [child|] eqn:Hs.
  - rewrite (cleanup_with_server c child Hs). apply armed_setTimeout. now left.
  - rewrite (cleanup_without_server c Hs). exact H.
Qed.

Lemma promises_cleanup c p o :
  promises c !! p = Some o -> promises (fst (cleanup c)) !! p = Some o.
Proof.
  intros H. unfold cleanup. destruct (server c); cbn;
    now apply lookup_app_l_Some.
Qed.

Lemma fire_cleanup_timer c t p :
  armed c t (CleanupWait p) ->
  fire_timer t c = resolve p JUndefined (clearTimeout t c).
Proof. unfold armed, fire_timer. now intros ->. Qed.

(** C4, as the code has it.  [cleanup()] on a client with a server empties
    the table without calling any handler: it settles no promise and
    cancels no timer.  A call that was outstanding stays pending, also when
    [cleanup] has returned, until its own timer fires; that rejects it
    with ["Request <method> timed out"].  A response that arrives after
    [cleanup] changes nothing. *)
Theorem cleanup_clears_table (c : MCPTestClient) (child : nat) :
  reachable parse stringify c ->
  server c = Some child ->
  let c' := fst (cleanup c) in
  let returned := fire_timer (length (timers c)) c' in
  responseHandlers c' = ∅ /\ server c' = None /\ serverReady c' = false /\
  (forall p o, promises c !! p = Some o -> promises c' !! p = Some o) /\
  promises c' !! snd (cleanup c) = Some Pending /\
  promises returned !! snd (cleanup c) = Some (Resolved JUndefined) /\
  (forall response, dispatch c' response = c') /\
  (forall k h,
      responseHandlers c !! k = Some h ->
      exists method,
        armed c' (h_timeout h) (RequestTimeout k method (h_promise h)) /\
        promises c' !! h_promise h = Some Pending /\
        promises returned !! h_promise h = Some Pending /\
        promises (fire_timer (h_timeout h) c') !! h_promise h =
          Some (Rejected (lit "Request " ++ method ++ lit " timed out"))).
Proof.
  intros Hreach Hs c' returned.
  pose proof (Inv_reachable parse stringify c Hreach) as HI.
  assert (Inv c') as HI' by now apply Inv_cleanup.
  assert (armed c' (length (timers c)) (CleanupWait (length (promises c))))
    as Hwait.
  { unfold c'. rewrite (cleanup_with_server c child Hs).
    apply armed_setTimeout. right. split; reflexivity. }
  assert (snd (cleanup c) = length (promises c)) as Hp
    by (unfold cleanup; rewrite Hs; reflexivity).
  assert (responseHandlers c' = ∅) as Hempty
    by (unfold c'; rewrite (cleanup_with_server c child Hs); reflexivity).
  repeat apply conj.
  - exact Hempty.
  - unfold c'. rewrite (cleanup_with_server c child Hs). reflexivity.
  - unfold c'. rewrite (cleanup_with_server c child Hs). reflexivity.
  - intros p o. apply promises_cleanup.
  - rewrite Hp. exact (inv_pending c' HI' _ _ Hwait).
  - rewrite Hp. unfold returned. rewrite (fire_cleanup_timer _ _ _ Hwait).
    cbn. apply settle_pending. exact (inv_pending c' HI' _ _ Hwait).
  - intros response. unfold dispatch. rewrite Hempty.
    destruct (truthy _); [|reflexivity].
    destruct (number_key _); [|reflexivity]. now rewrite lookup_empty.
  - intros k h Hh. destruct (inv_handler c HI k h Hh) as [method Hm].
    exists method.
    assert (armed c' (h_timeout h) (RequestTimeout k method (h_promise h)))
      as Hm' by now apply armed_kept_cleanup.
    pose proof (inv_pending c' HI' _ _ Hm') as Hpending. cbn in Hpending.
    repeat apply conj.
    + exact Hm'.
    + exact Hpending.
    + unfold returned. rewrite (fire_cleanup_timer _ _ _ Hwait). cbn.
      rewrite settle_lookup_ne; [exact Hpending|].
      intros E.
      assert (h_timeout h = length (timers c)) as Et
        by (eapply (inv_unique c' HI'); [exact Hm' | exact Hwait | exact E]).
      apply armed_lt in Hm. lia.
    + rewrite (fire_request_timer c' _ _ _ _ Hm'). cbn.
      now apply settle_pending.
Qed.

(** *** Readiness *)



Lemma run_snoc events e c :
  run parse stringify (events ++ [e]) c =
  step parse stringify (run parse stringify events c) e.
Proof. unfold run. now rewrite fold_left_app. Qed.




(** *** The startup timer *)





Lemma armed_kept_receive c output t cb :
  Inv c -> armed c t cb ->
  (forall id m p, cb <> RequestTimeout id m p) ->
  armed (receive parse c output) t cb.
Proof.
  intros HI Ht Hcb. unfold receive.
  apply armed_kept_processOutputBuffer; [now apply (Inv_ext c) | exact Ht | exact Hcb].
Qed.








End Lifecycle.

(** Three calls are outstanding; [cleanup] is called and returns (its timer
    fires, its promise is resolved): the three calls are still pending, none
    was failed, and their entries are gone. *)
Lemma cleanup_leaves_calls_pending :
  let c := run Sample.parse Sample.stringify
             (Sample.three_calls ++ [EvCleanup; EvTimer 4]) new_client in
  promises c !! 4 = Some (Resolved JUndefined) /\
  promises c !! 1 = Some Pending /\
  promises c !! 2 = Some Pending /\
  promises c !! 3 = Some Pending /\
  responseHandlers c !! 1%Z = None /\
  responseHandlers c !! 2%Z = None /\
  responseHandlers c !! 3%Z = None.
Proof. vm_compute. repeat split. Qed.

Lemma cleanup_clears_table_witness :
  let c := Sample.busy_client in
  let c' := fst (cleanup c) in
  let returned := fire_timer (length (timers c)) c' in
  responseHandlers c' = ∅ /\ server c' = None /\ serverReady c' = false /\
  (forall p o, promises c !! p = Some o -> promises c' !! p = Some o) /\
  promises c' !! snd (cleanup c) = Some Pending /\
  promises returned !! snd (cleanup c) = Some (Resolved JUndefined) /\
  (forall response, dispatch c' response = c') /\
  (forall k h,
      responseHandlers c !! k = Some h ->
      exists method,
        armed c' (h_timeout h) (RequestTimeout k method (h_promise h)) /\
        promises c' !! h_promise h = Some Pending /\
        promises returned !! h_promise h = Some Pending /\
        promises (fire_timer (h_timeout h) c') !! h_promise h =
          Some (Rejected (lit "Request " ++ method ++ lit " timed out"))).
Proof.
  apply (cleanup_clears_table Sample.parse Sample.stringify
           Sample.busy_client 0).
  - exists Sample.two_calls. reflexivity.
  - vm_compute. reflexivity.
Defined.

(** ** The dispatcher of ["tools/call"] *)

Section Dispatcher.

Variable K8S_NAMESPACE : option jsstring.
Variable k8sApi_listNamespacedPod : JSValue -> Completion JSValue.
Variable k8sApi_readNamespacedPod : JSValue -> JSValue -> Completion JSValue.
Variable k8sApi_listNode : Completion JSValue.
Variable pods_of pod_of nodes_of : JSValue -> Completion JSValue.
Variable JSON_stringify_indented : JSValue -> jsstring.
Variable ToString : JSValue -> jsstring.

Let call_tool : CallToolRequest -> Run CallToolResult :=
  tools_call K8S_NAMESPACE k8sApi_listNamespacedPod k8sApi_readNamespacedPod
    k8sApi_listNode pods_of pod_of nodes_of JSON_stringify_indented ToString.

Let handler_for : jsstring -> option (JSValue -> Run JSValue) :=
  tool_handler K8S_NAMESPACE k8sApi_listNamespacedPod k8sApi_readNamespacedPod
    k8sApi_listNode pods_of pod_of nodes_of ToString.

Let descriptors : list ToolDescriptor := tools_list K8S_NAMESPACE.

(** [config.kubernetes.namespace] is never the empty string. *)
Lemma namespace_default_truthy :
  truthy (JStr (namespace_default K8S_NAMESPACE)) = true.
Proof.
  unfold namespace_default, config_kubernetes_namespace.
  destruct K8S_NAMESPACE as [[|c s]|]; reflexivity.
Qed.

(** The [switch] with the handler it selects made explicit. *)
Lemma tools_call_handler name args handler :
  handler_for name = Some handler ->
  call_tool (request_for name args) =
  try_catch
    (let* result := handler (js_or args (JObj [])) in
     ret (text_result (JSON_stringify_indented result)))
    (fun error => ret (error_result (lit "Error: " ++ message error))).
Proof.
  unfold handler_for, tool_handler, call_tool, tools_call. cbn.
  destruct (bool_decide (name = lit "list-pods"));
    [intros H; injection H as <-; reflexivity|].
  destruct (bool_decide (name = lit "get-pod"));
    [intros H; injection H as <-; reflexivity|].
  destruct (bool_decide (name = lit "list-nodes"));
    [intros H; injection H as <-; reflexivity|].
  discriminate.
Qed.

Lemma tools_call_unknown name args :
  handler_for name = None ->
  call_tool (request_for name args) =
  ([], Return (error_result (lit "Error: " ++ lit "Unknown tool: " ++ name))).
Proof.
  unfold handler_for, tool_handler, call_tool, tools_call. cbn.
  destruct (bool_decide (name = lit "list-pods")); [discriminate|].
  destruct (bool_decide (name = lit "get-pod")); [discriminate|].
  destruct (bool_decide (name = lit "list-nodes")); [discriminate|].
  reflexivity.
Qed.

Lemma lit_neq (a b : string) : lit a <> lit b -> bool_decide (lit a = lit b) = false.
Proof. apply bool_decide_eq_false_2. Qed.

Lemma handler_for_list_pods :
  handler_for (lit "list-pods") =
  Some (listPodsHandler K8S_NAMESPACE k8sApi_listNamespacedPod pods_of).
Proof.
  unfold handler_for, tool_handler.
  now rewrite bool_decide_eq_true_2 by reflexivity.
Qed.

Lemma handler_for_get_pod :
  handler_for (lit "get-pod") =
  Some (getPodHandler K8S_NAMESPACE k8sApi_readNamespacedPod pod_of ToString).
Proof.
  unfold handler_for, tool_handler.
  rewrite (lit_neq "get-pod" "list-pods") by (vm_compute; discriminate).
  now rewrite bool_decide_eq_true_2 by reflexivity.
Qed.

(** The names with a handler are those that ["tools/list"] describes. *)
Lemma handler_for_registered name :
  is_Some (handler_for name) <->
  In name (List.map (fun d => lit (tool_name d)) descriptors).
Proof.
  unfold handler_for, tool_handler, descriptors, tools_list. cbn. split.
  - intros Hsome. repeat case_bool_decide; subst; auto.
    destruct Hsome; discriminate.
  - intros [<-|[<-|[<-|[]]]]; repeat case_bool_decide; eauto; congruence.
Qed.

(** C3, as the code has it.  For a name that ["tools/list"] does not
    describe, the handler of ["tools/call"] throws inside its own [try] and
    catches it: it returns a result with [isError: true] and the text
    ["Error: Unknown tool: <name>"], which the protocol layer sends in a
    success envelope.  No handler is entered and no cluster call is made. *)
Theorem unknown_tool_flagged_result (name : jsstring) (args : JSValue) :
  ~ In name (List.map (fun d => lit (tool_name d)) descriptors) ->
  call_tool (request_for name args) =
    ([], Return (error_result (lit "Error: Unknown tool: " ++ name))) /\
  respond (snd (call_tool (request_for name args))) =
    ResponseSuccess (error_result (lit "Error: Unknown tool: " ++ name)) /\
  isError (error_result (lit "Error: Unknown tool: " ++ name)) = true.
Proof.
  intros Hname.
  assert (handler_for name = None) as Hnone.
  { apply eq_None_not_Some. intros H. now apply handler_for_registered in H. }
  rewrite (tools_call_unknown name args Hnone). repeat split.
Qed.

(** Whatever the handlers do, the handler of ["tools/call"] returns when
    the request has [params]. *)
Lemma tools_call_returns p :
  exists result, snd (call_tool {| params := Some p |}) = Return result.
Proof.
  destruct p as [name args].
  change {| params := Some {| name := name; arguments := args |} |}
    with (request_for name args).
  destruct (handler_for name) as [handler|] eqn:Hh.
  - rewrite (tools_call_handler name args handler Hh).
    destruct (handler (js_or args (JObj []))) as [log [result|e]]; cbn; eauto.
  - rewrite (tools_call_unknown name args Hh). cbn. eauto.
Qed.

(** C6.  When the handler of a registered tool throws, the handler of
    ["tools/call"] catches it and returns a result with the text
    ["Error: <message>"] and [isError: true]; the protocol layer sends it
    in a success envelope, not as an error response.  The handler of
    ["tools/call"] returns for every request that has [params].  The
    callback of ["list-pods"] of the second server catches the failure of
    the cluster call itself and returns a result flagged in the same way. *)
Theorem handler_failure_is_flagged_result
    (name : jsstring) (args : JSValue) (handler : JSValue -> Run JSValue)
    (log : list Effect) (e : ErrorObject) :
  handler_for name = Some handler ->
  handler (js_or args (JObj [])) = (log, Throw e) ->
  let flagged := error_result (lit "Error: " ++ message e) in
  call_tool (request_for name args) = (log, Return flagged) /\
  respond (snd (call_tool (request_for name args))) = ResponseSuccess flagged /\
  isError flagged = true /\
  (forall p, exists result,
      snd (call_tool {| params := Some p |}) = Return result) /\
  (forall namespace e',
      k8sApi_listNamespacedPod namespace = Throw e' ->
      snd (list_pods_tool k8sApi_listNamespacedPod pods_of
             JSON_stringify_indented namespace)
      = Return (error_result (lit "Error listing pods: " ++ message e'))).
Proof.
  intros Hh Hthrow flagged.
  rewrite (tools_call_handler name args handler Hh), Hthrow. cbn.
  rewrite app_nil_r. repeat apply conj; try reflexivity.
  - apply tools_call_returns.
  - intros namespace e' Hrefused. unfold list_pods_tool. cbn.
    rewrite Hrefused. reflexivity.
Qed.

(** C7, as the code has it.  ["get-pod"] with input whose [name] is missing
    (or falsy): the handler of ["tools/call"] does call [getPodHandler],
    with the input as it came; [getPodHandler] throws ["Pod name is
    required"] before any cluster call; the result is flagged with
    [isError: true] and sent in a success envelope.  ["tools/list"]
    declares [name] as required, without default. *)
Theorem missing_name_flagged_result (args : JSValue) :
  truthy (get "name" (js_or args (JObj []))) = false ->
  let flagged := error_result (lit "Error: Pod name is required") in
  call_tool (request_for (lit "get-pod") args) =
    ([HandlerCalled "getPodHandler" (js_or args (JObj []))], Return flagged) /\
  respond (snd (call_tool (request_for (lit "get-pod") args)))
    = ResponseSuccess flagged /\
  isError flagged = true /\
  In {| tool_name := "get-pod"; tool_required := ["name"%string];
        tool_properties :=
          [ {| prop_name := "name"; prop_default := None |};
            {| prop_name := "namespace";
               prop_default := Some (namespace_default K8S_NAMESPACE) |} ] |}
     descriptors.
Proof.
  intros Hname flagged.
  assert (call_tool (request_for (lit "get-pod") args) =
          ([HandlerCalled "getPodHandler" (js_or args (JObj []))],
           Return flagged)) as E.
  { rewrite (tools_call_handler _ args _ handler_for_get_pod).
    unfold getPodHandler. cbn. rewrite Hname. reflexivity. }
  rewrite E. repeat apply conj; try reflexivity.
  right. left. reflexivity.
Qed.

(** The handler of ["tools/call"] of [server.ts] passes the input as it came
    ([args || {}]), without the default: a handler whose input omits
    [namespace] is entered with [namespace] absent.  The handler itself
    takes [config.kubernetes.namespace] in its place (also for a falsy
    [namespace]), so the cluster call always gets a namespace, which is
    never empty. *)
Lemma handler_substitutes_namespace (args : JSValue) :
  truthy (get "namespace" (js_or args (JObj []))) = false ->
  let input := js_or args (JObj []) in
  let default := JStr (namespace_default K8S_NAMESPACE) in
  fst (call_tool (request_for (lit "list-pods") args)) =
    [HandlerCalled "listPodsHandler" input; ListNamespacedPod default] /\
  (truthy (get "name" input) = true ->
   fst (call_tool (request_for (lit "get-pod") args)) =
     [HandlerCalled "getPodHandler" input;
      ReadNamespacedPod (get "name" input) default]) /\
  truthy default = true.
Proof.
  intros Hns input default. repeat apply conj.
  - rewrite (tools_call_handler _ args _ handler_for_list_pods).
    unfold listPodsHandler. fold input.
    replace (js_or (get "namespace" input) (JStr (namespace_default K8S_NAMESPACE)))
      with default
      by (subst input default; unfold js_or at 1; now rewrite Hns).
    cbn.
    destruct (k8sApi_listNamespacedPod default) as [response|e]; cbn;
      [destruct (pods_of response) as [pods|e]; cbn|]; reflexivity.
  - intros Hname.
    rewrite (tools_call_handler _ args _ handler_for_get_pod).
    unfold getPodHandler. fold input.
    replace (js_or (get "namespace" input) (JStr (namespace_default K8S_NAMESPACE)))
      with default
      by (subst input default; unfold js_or at 1; now rewrite Hns).
    rewrite Hname. cbn.
    destruct (k8sApi_readNamespacedPod _ default) as [response|e]; cbn;
      [destruct (pod_of response) as [pod|e]; cbn|];
      try reflexivity;
      destruct (bool_decide (statusCode e = Some 404%Z)); reflexivity.
  - apply namespace_default_truthy.
Qed.

End Dispatcher.

(** The server on the sample cluster. *)

(** An unknown tool is answered in a success envelope, not with an error
    response. *)
Lemma unknown_tool_not_error_response :
  respond (snd (Sample.tools_call (Sample.call "invalid-tool" JUndefined))) =
    ResponseSuccess (error_result (lit "Error: Unknown tool: invalid-tool")) /\
  forall m,
    respond (snd (Sample.tools_call (Sample.call "invalid-tool" JUndefined)))
    <> ResponseError m.
Proof. vm_compute. split; [reflexivity | discriminate]. Qed.

Lemma unknown_tool_flagged_result_witness :
  Sample.tools_call (Sample.call "invalid-tool" JUndefined) =
    ([], Return (error_result (lit "Error: Unknown tool: " ++ lit "invalid-tool"))).
Proof.
  refine (proj1 (unknown_tool_flagged_result None Sample.listNamespacedPod
                   Sample.readNamespacedPod Sample.listNode
                   Sample.view Sample.view Sample.view Sample.show Sample.show
                   (lit "invalid-tool") JUndefined _)).
  vm_compute. intros [H|[H|[H|[]]]]; discriminate.
Defined.

Lemma handler_failure_is_flagged_result_witness :
  Sample.tools_call (Sample.call "list-pods" JUndefined) =
    ([HandlerCalled "listPodsHandler" (JObj []);
      ListNamespacedPod (JStr (lit "default"))],
     Return
       (error_result
          (lit "Error: " ++
           message (new_Error (lit "Failed to list pods: "
                               ++ lit "connection refused"))))).
Proof.
  refine (proj1 (handler_failure_is_flagged_result None
                   Sample.listNamespacedPod
                   Sample.readNamespacedPod Sample.listNode
                   Sample.view Sample.view Sample.view Sample.show Sample.show
                   (lit "list-pods") JUndefined
                   (listPodsHandler None Sample.listNamespacedPod Sample.view)
                   _ _ _ _)).
  - vm_compute. reflexivity.
  - vm_compute. reflexivity.
Defined.

(** ["get-pod"] without [name]: [getPodHandler] is entered, and the answer
    is a success envelope. *)
Lemma missing_name_invokes_handler :
  Sample.tools_call (Sample.call "get-pod" (JObj [])) =
    ([HandlerCalled "getPodHandler" (JObj [])],
     Return (error_result (lit "Error: Pod name is required"))) /\
  forall m,
    respond (snd (Sample.tools_call (Sample.call "get-pod" (JObj []))))
    <> ResponseError m.
Proof. vm_compute. split; [reflexivity | discriminate]. Qed.

Lemma missing_name_flagged_result_witness :
  Sample.tools_call (Sample.call "get-pod" (JObj [])) =
    ([HandlerCalled "getPodHandler" (js_or (JObj []) (JObj []))],
     Return (error_result (lit "Error: Pod name is required"))).
Proof.
  refine (proj1 (missing_name_flagged_result None
                   Sample.listNamespacedPod
                   Sample.readNamespacedPod Sample.listNode
                   Sample.view Sample.view Sample.view Sample.show Sample.show
                   (JObj []) _)).
  vm_compute. reflexivity.
Defined.

(** ["list-pods"] without [namespace]: [listPodsHandler] is entered with
    the input as it came, where [namespace] is absent. *)
Lemma handler_sees_namespace_absent :
  fst (Sample.tools_call (Sample.call "list-pods" (JObj []))) =
    [HandlerCalled "listPodsHandler" (JObj []);
     ListNamespacedPod (JStr (lit "default"))] /\
  get "namespace" (JObj []) = JUndefined.
Proof. vm_compute. split; reflexivity. Qed.

(** * Further properties of the client *)

Lemma cleared_kept_refl ts : cleared_kept ts ts.
Proof. intros t H. exact H. Qed.

Lemma cleared_kept_trans ts1 ts2 ts3 :
  cleared_kept ts1 ts2 -> cleared_kept ts2 ts3 -> cleared_kept ts1 ts3.
Proof. intros H12 H23 t H. now apply H23, H12. Qed.

Lemma cleared_kept_clear t0 ts : cleared_kept ts (<[t0 := None]> ts).
Proof.
  intros t H. destruct (decide (t = t0)) as [->|Hne].
  - apply list_lookup_insert_eq. now apply lookup_lt_Some in H.
  - now rewrite list_lookup_insert_ne by congruence.
Qed.

Lemma cleared_kept_snoc cb ts : cleared_kept ts (ts ++ [cb]).
Proof. intros t H. now apply lookup_app_l_Some. Qed.

Lemma cleared_kept_dispatch c response :
  cleared_kept (timers c) (timers (dispatch c response)).
Proof.
  unfold dispatch.
  destruct (truthy _); [|apply cleared_kept_refl].
  destruct (number_key _) as [k|]; [|apply cleared_kept_refl].
  destruct (responseHandlers c !! k) as [h|]; [|apply cleared_kept_refl].
  apply cleared_kept_clear.
Qed.

Lemma outputBuffer_dispatch c response :
  outputBuffer (dispatch c response) = outputBuffer c.
Proof.
  unfold dispatch.
  destruct (truthy _); [|reflexivity].
  destruct (number_key _) as [k'|]; [|reflexivity].
  destruct (responseHandlers c !! k'); reflexivity.
Qed.

Section ClientExtras.

Variable parse : jsstring -> option JSValue.
Variable stringify : JSValue -> jsstring.

Lemma cleared_kept_process_lines lines c :
  cleared_kept (timers c) (timers (fold_left (process_line parse) lines c)).
Proof.
  revert c. induction lines as [|l lines IH]; intros c; [apply cleared_kept_refl|].
  simpl. eapply cleared_kept_trans; [|apply IH]. unfold process_line.
  destruct (decode parse l); [apply cleared_kept_dispatch | apply cleared_kept_refl].
Qed.

Lemma cleared_kept_processOutputBuffer c :
  cleared_kept (timers c) (timers (processOutputBuffer parse c)).
Proof.
  unfold processOutputBuffer.
  apply (cleared_kept_process_lines _ (set_outputBuffer _ c)).
Qed.

Lemma cleared_kept_cleanup c : cleared_kept (timers c) (timers (fst (cleanup c))).
Proof.
  unfold cleanup. destruct (server c); cbn;
    [apply cleared_kept_snoc | apply cleared_kept_refl].
Qed.

Lemma cleared_kept_step c e :
  cleared_kept (timers c) (timers (step parse stringify c e)).
Proof.
  destruct e as [|child output|child message|t|method params|]; cbn.
  - apply cleared_kept_snoc.
  - destruct (children c !! child) as [l|] eqn:Hl;
      [|unfold on_stdout_data; rewrite Hl; apply cleared_kept_refl].
    rewrite (on_stdout_data_receive parse child l output c Hl).
    destruct (includes READY output); unfold receive, resolve.
    + eapply cleared_kept_trans;
        [|apply (cleared_kept_processOutputBuffer
                   (set_outputBuffer _
                      (clearTimeout (l_timeout l) (set_serverReady true c))))].
      apply cleared_kept_clear.
    + apply (cleared_kept_processOutputBuffer (set_outputBuffer _ c)).
  - unfold on_error. destruct (children c !! child) as [l|];
      [apply cleared_kept_clear | apply cleared_kept_refl].
  - unfold fire_timer.
    destruct (timers c !! t) as [[[p|id m p|p]|]|];
      try apply cleared_kept_refl; try apply cleared_kept_clear.
    unfold reject.
    eapply cleared_kept_trans;
      [|apply (cleared_kept_cleanup (clearTimeout t c))].
    apply cleared_kept_clear.
  - unfold sendRequest. destruct (serverReady c), (server c); cbn;
      try apply cleared_kept_refl. apply cleared_kept_snoc.
  - apply cleared_kept_cleanup.
Qed.

Lemma cleared_kept_run events c :
  cleared_kept (timers c) (timers (run parse stringify events c)).
Proof.
  revert c. induction events as [|e events IH]; intros c; [apply cleared_kept_refl|].
  cbn. eapply cleared_kept_trans; [apply cleared_kept_step | apply IH].
Qed.

Lemma fire_cleared t c : timers c !! t = Some None -> fire_timer t c = c.
Proof. intros H. unfold fire_timer. now rewrite H. Qed.

(** *** The buffer *)

Lemma outputBuffer_receive c output :
  outputBuffer (receive parse c output) =
  incomplete_line (outputBuffer c ++ output).
Proof. now rewrite receive_lines. Qed.

Lemma outputBuffer_cleanup c : outputBuffer (fst (cleanup c)) = outputBuffer c.
Proof. unfold cleanup. now destruct (server c). Qed.

Lemma outputBuffer_step c e :
  newline_free (outputBuffer c) ->
  newline_free (outputBuffer (step parse stringify c e)).
Proof.
  intros H. destruct e as [|child output|child message|t|method params|]; cbn.
  - exact H.
  - destruct (children c !! child) as [l|] eqn:Hl;
      [|unfold on_stdout_data; now rewrite Hl].
    rewrite (on_stdout_data_receive parse child l output c Hl).
    destruct (includes READY output).
    + change (newline_free
                (outputBuffer
                   (receive parse
                      (clearTimeout (l_timeout l) (set_serverReady true c))
                      output))).
      rewrite outputBuffer_receive. apply incomplete_line_newline_free.
    + rewrite outputBuffer_receive. apply incomplete_line_newline_free.
  - unfold on_error. now destruct (children c !! child).
  - unfold fire_timer.
    destruct (timers c !! t) as [[[p|id m p|p]|]|]; try exact H.
    unfold reject. cbn. now rewrite outputBuffer_cleanup.
  - unfold sendRequest. now destruct (serverReady c), (server c).
  - now rewrite outputBuffer_cleanup.
Qed.

(** X1.  In every state the client can reach, [outputBuffer] holds no line
    terminator: what is kept between chunks is always one unfinished line. *)
Theorem outputBuffer_is_one_line (c : MCPTestClient) :
  reachable parse stringify c -> newline_free (outputBuffer c).
Proof.
  intros [events ->].
  induction events as [|e events IH] using rev_ind; [constructor|].
  rewrite run_snoc. now apply outputBuffer_step.
Qed.

(** *** Protocol frames among other output *)

Lemma process_lines_omap lines : forall c,
  fold_left (process_line parse) lines c =
  fold_left dispatch (omap (decode parse) lines) c.
Proof.
  induction lines as [|l lines IH]; intros c; [reflexivity|].
  simpl. unfold process_line at 2.
  destruct (decode parse l); simpl; apply IH.
Qed.

(** X2.  Lines of any text, cut into chunks in any way: the lines that decode
    reach the correlation step as messages, in their order; every other line
    (log output, text that is no JSON) is dropped without any effect; the
    unterminated rest stays in the buffer. *)
Theorem mixed_stream
    (lines : list jsstring) (rest : jsstring) (chunks : list jsstring)
    (c : MCPTestClient) :
  Forall newline_free lines ->
  newline_free rest ->
  outputBuffer c = [] ->
  List.concat chunks = frame_bytes lines ++ rest ->
  fold_left (receive parse) chunks c =
  set_outputBuffer rest (fold_left dispatch (omap (decode parse) lines) c).
Proof.
  intros Hlines Hrest Hbuf Hcut.
  assert (newline_free (outputBuffer c)) as Hfree by (rewrite Hbuf; constructor).
  rewrite (receive_chunks parse chunks c Hfree), Hbuf. simpl. rewrite Hcut.
  destruct (complete_lines_frames lines rest Hlines Hrest) as [-> ->].
  now rewrite process_lines_omap.
Qed.

(** *** A response settles its call once *)

(** X3.  When a response arrives for an outstanding call, the promise of the
    call is resolved with it, the entry leaves the table and the timer of the
    call is cleared.  From then on, whatever happens: the promise keeps that
    response, a second response with the identifier changes nothing, and the
    timer of the call, should it come up, does nothing. *)
Theorem response_settles_once
    (c : MCPTestClient) (k : Z) (t p : nat) (response : JSValue) :
  reachable parse stringify c ->
  responseHandlers c !! k = Some {| h_timeout := t; h_promise := p |} ->
  get "id" response = JInt k ->
  let c' := dispatch c response in
  promises c !! p = Some Pending /\
  promises c' !! p = Some (Resolved response) /\
  responseHandlers c' !! k = None /\
  timers c' !! t = Some None /\
  forall events,
    let later := run parse stringify events c' in
    promises later !! p = Some (Resolved response) /\
    fire_timer t later = later /\
    forall again,
      number_key (get "id" again) = Some k -> dispatch later again = later.
Proof.
  intros Hreach Hh Hid c'.
  pose proof (Inv_reachable parse stringify c Hreach) as HI.
  destruct (inv_handler c HI k _ Hh) as [m Hm]. cbn in Hm.
  pose proof (inv_request c HI _ _ _ _ Hm) as Hk.
  pose proof (inv_pending c HI _ _ Hm) as Hp. cbn in Hp.
  assert (c' = run_handler {| h_timeout := t; h_promise := p |} response
                 (set_responseHandlers (delete k (responseHandlers c)) c))
    as Hc' by (apply dispatch_registered; [exact Hid | lia | exact Hh]).
  assert (promises c' !! p = Some (Resolved response)) as Hres
    by (rewrite Hc'; cbn; now apply settle_pending).
  assert (responseHandlers c' !! k = None) as Hnone
    by (rewrite Hc'; cbn; apply lookup_delete_eq).
  assert (timers c' !! t = Some None) as Hclr.
  { rewrite Hc'. cbn. apply list_lookup_insert_eq. now apply armed_lt in Hm. }
  assert (k <= requestId c')%Z as Hle
    by (unfold c'; rewrite requestId_dispatch; lia).
  repeat apply conj; try assumption.
  intros events later. repeat apply conj.
  - apply (kept_run parse stringify events c'); [exact Hres | discriminate].
  - apply fire_cleared. now apply (cleared_kept_run events c').
  - intros again Hagain. apply (dispatch_unregistered later again k Hagain).
    now apply absent_run.
Qed.

(** *** Every continuation belongs to a pending call *)

(** X7.  In every state the client can reach, each entry of the table is the
    handler of a call whose promise is still pending and whose timer is still
    armed, with an identifier that was allocated; two entries never share a
    promise or a timer.  So no handler and no timer can settle a promise that
    is settled already. *)
Theorem continuations_are_pending (c : MCPTestClient) :
  reachable parse stringify c ->
  (forall k h,
      responseHandlers c !! k = Some h ->
      (1 <= k <= requestId c)%Z /\
      promises c !! h_promise h = Some Pending /\
      exists method,
        armed c (h_timeout h) (RequestTimeout k method (h_promise h))) /\
  (forall t cb, armed c t cb -> promises c !! timer_promise cb = Some Pending) /\
  (forall k k' h h',
      responseHandlers c !! k = Some h -> responseHandlers c !! k' = Some h' ->
      h_promise h = h_promise h' \/ h_timeout h = h_timeout h' -> k = k').
Proof.
  intros Hreach.
  pose proof (Inv_reachable parse stringify c Hreach) as HI.
  repeat apply conj.
  - intros k h Hh. destruct (inv_handler c HI k h Hh) as [m Hm].
    repeat apply conj.
    + apply (inv_request c HI _ _ _ _ Hm).
    + apply (inv_request c HI _ _ _ _ Hm).
    + apply (inv_pending c HI _ _ Hm).
    + now exists m.
  - apply (inv_pending c HI).
  - intros k k' h h' Hh Hh' [E|E].
    + eapply handler_promise_unique; eassumption.
    + eapply handler_timeout_unique; eassumption.
Qed.

End ClientExtras.

Lemma mixed_stream_witness :
  fold_left (receive Sample.parse)
    [lit "Starting server" ++ [nl] ++ firstn 4 (Sample.frame 2);
     skipn 4 (Sample.frame 2) ++ [nl] ++ lit "{not json}" ++ [nl] ++ lit "par"]
    Sample.busy_client =
  set_outputBuffer (lit "par")
    (fold_left dispatch
       (omap (decode Sample.parse)
          [lit "Starting server"; Sample.frame 2; lit "{not json}"])
       Sample.busy_client).
Proof.
  apply (mixed_stream Sample.parse
           [lit "Starting server"; Sample.frame 2; lit "{not json}"]
           (lit "par")).
  - repeat constructor; vm_compute; discriminate.
  - repeat constructor; vm_compute; discriminate.
  - vm_compute. reflexivity.
  - vm_compute. reflexivity.
Defined.

Lemma outputBuffer_is_one_line_witness :
  newline_free
    (outputBuffer
       (run Sample.parse Sample.stringify
          (Sample.two_calls ++ [EvData 0 (Sample.frame 1 ++ [nl] ++ lit "{par")])
          new_client)).
Proof.
  apply (outputBuffer_is_one_line Sample.parse Sample.stringify).
  eexists. reflexivity.
Defined.

Lemma response_settles_once_witness :
  let c' := dispatch Sample.busy_client (Sample.response 2) in
  promises Sample.busy_client !! 2 = Some Pending /\
  promises c' !! 2 = Some (Resolved (Sample.response 2)) /\
  responseHandlers c' !! 2%Z = None /\
  timers c' !! 2 = Some None /\
  forall events,
    let later := run Sample.parse Sample.stringify events c' in
    promises later !! 2 = Some (Resolved (Sample.response 2)) /\
    fire_timer 2 later = later /\
    forall again,
      number_key (get "id" again) = Some 2%Z -> dispatch later again = later.
Proof.
  apply (response_settles_once Sample.parse Sample.stringify
           Sample.busy_client 2%Z 2 2 (Sample.response 2)).
  - exists Sample.two_calls. reflexivity.
  - vm_compute. reflexivity.
  - vm_compute. reflexivity.
Defined.

Lemma continuations_are_pending_witness :
  promises Sample.busy_client !! 1 = Some Pending.
Proof.
  refine (proj1 (proj2 (continuations_are_pending Sample.parse Sample.stringify
                          Sample.busy_client _))
            1 (RequestTimeout 1 (lit "tools/list") 1) _).
  - exists Sample.two_calls. reflexivity.
  - vm_compute. reflexivity.
Defined.

(** ** Closing, readiness and what is written *)

Lemma dispatch_clearTimeout t c response :
  dispatch (clearTimeout t c) response = clearTimeout t (dispatch c response).
Proof.
  unfold dispatch. cbn.
  destruct (truthy _); [|reflexivity].
  destruct (number_key _) as [k|]; [|reflexivity].
  destruct (responseHandlers c !! k) as [h|]; [|reflexivity].
  unfold run_handler, resolve, clearTimeout. cbn.
  destruct (decide (h_timeout h = t)) as [->|Hne]; [reflexivity|].
  now rewrite (list_insert_insert_ne (timers c) (h_timeout h) t None None Hne).
Qed.

Lemma dispatch_set_serverReady b c response :
  dispatch (set_serverReady b c) response = set_serverReady b (dispatch c response).
Proof.
  unfold dispatch. cbn.
  destruct (truthy _); [|reflexivity].
  destruct (number_key _) as [k|]; [|reflexivity].
  destruct (responseHandlers c !! k); reflexivity.
Qed.

Section ClientLifecycle.

Variable parse : jsstring -> option JSValue.
Variable stringify : JSValue -> jsstring.

Lemma process_lines_ready_prefix lines t : forall c,
  fold_left (process_line parse) lines (clearTimeout t (set_serverReady true c)) =
  clearTimeout t (set_serverReady true (fold_left (process_line parse) lines c)).
Proof.
  induction lines as [|l lines IH]; intros c; [reflexivity|].
  simpl. rewrite <- IH. f_equal. unfold process_line.
  destruct (decode parse l); [|reflexivity].
  now rewrite dispatch_clearTimeout, dispatch_set_serverReady.
Qed.

(** The chunk that announces readiness: its lines are processed as those of
    any chunk; besides, the client is ready, the startup timer is cleared
    and the promise of [start] is resolved. *)
Lemma on_stdout_data_ready child l output c :
  children c !! child = Some l ->
  includes READY output = true ->
  on_stdout_data parse child output c =
  resolve (l_promise l) JUndefined
    (clearTimeout (l_timeout l) (set_serverReady true (receive parse c output))).
Proof.
  intros Hl Hinc. rewrite (on_stdout_data_receive parse child l output c Hl), Hinc.
  f_equal. rewrite !receive_lines. cbn.
  now rewrite process_lines_ready_prefix.
Qed.

Lemma children_receive c output :
  children (receive parse c output) = children c.
Proof. unfold receive. now rewrite children_processOutputBuffer. Qed.

Lemma serverReady_receive c output :
  serverReady (receive parse c output) = serverReady c.
Proof. unfold receive. now rewrite serverReady_processOutputBuffer. Qed.

Lemma field_on_stdout_data {A} (field : MCPTestClient -> A) :
  (forall c response, field (dispatch c response) = field c) ->
  (forall b c, field (set_outputBuffer b c) = field c) ->
  (forall b c, field (set_serverReady b c) = field c) ->
  (forall v c, field (set_timers v c) = field c) ->
  (forall v c, field (set_promises v c) = field c) ->
  forall child output c, field (on_stdout_data parse child output c) = field c.
Proof.
  intros Hd Hb Hr Ht Hp child output c. unfold on_stdout_data.
  destruct (children c !! child) as [l|]; [|reflexivity].
  rewrite (field_processOutputBuffer parse field Hd Hb).
  destruct (includes READY output); [|apply Hb].
  unfold resolve, clearTimeout.
  now rewrite Hp, (field_processOutputBuffer parse field Hd Hb), Ht, Hr, Hb.
Qed.

Lemma server_on_stdout_data child output c :
  server (on_stdout_data parse child output c) = server c.
Proof. now apply field_on_stdout_data; [apply server_dispatch| | | |]. Qed.

Lemma stdin_on_stdout_data child output c :
  stdin (on_stdout_data parse child output c) = stdin c.
Proof. now apply field_on_stdout_data; [apply stdin_dispatch| | | |]. Qed.

Lemma requestId_on_stdout_data child output c :
  requestId (on_stdout_data parse child output c) = requestId c.
Proof. now apply field_on_stdout_data; [apply requestId_dispatch| | | |]. Qed.

Lemma children_on_stdout_data child output c :
  children (on_stdout_data parse child output c) = children c.
Proof. now apply field_on_stdout_data; [apply children_dispatch| | | |]. Qed.

(** X6.  Readiness is looked for in each chunk on its own.  Chunks none of
    which holds the whole readiness line are processed as ordinary output,
    and the client is as ready after them as it was before: a readiness line
    that arrives cut in two is not seen. *)
Theorem readiness_needs_one_chunk
    (c : MCPTestClient) (child : nat) (l : Listener) (chunks : list jsstring) :
  children c !! child = Some l ->
  Forall (fun chunk => includes READY chunk = false) chunks ->
  let c' := fold_left (fun c chunk => on_stdout_data parse child chunk c) chunks c in
  c' = fold_left (receive parse) chunks c /\
  serverReady c' = serverReady c.
Proof.
  intros Hl Hchunks. cbn zeta. revert c Hl.
  induction Hchunks as [|chunk chunks Hchunk _ IH]; intros c Hl; [split; reflexivity|].
  cbn. rewrite (on_stdout_data_receive parse child l chunk c Hl), Hchunk.
  destruct (IH (receive parse c chunk)) as [E1 E2];
    [now rewrite children_receive|].
  split; [exact E1|]. now rewrite E2, serverReady_receive.
Qed.

(** X9.  A chunk that holds the readiness line, from a child whose startup
    timer is still armed: the promise of [start] is resolved, the client is
    ready and the startup timer is cleared for good, so it never kills a
    server that announced readiness. *)
Theorem start_resolves_on_readiness
    (c : MCPTestClient) (child t p : nat) (output : jsstring) :
  reachable parse stringify c ->
  children c !! child = Some {| l_timeout := t; l_promise := p |} ->
  armed c t (StartTimeout p) ->
  includes READY output = true ->
  let c' := on_stdout_data parse child output c in
  promises c' !! p = Some (Resolved JUndefined) /\
  serverReady c' = true /\
  server c' = server c /\
  timers c' !! t = Some None /\
  forall events,
    let later := run parse stringify events c' in
    promises later !! p = Some (Resolved JUndefined) /\
    fire_timer t later = later.
Proof.
  intros Hreach Hl Ht Hinc c'.
  pose proof (Inv_reachable parse stringify c Hreach) as HI.
  assert (Inv (receive parse c output)) as HIr.
  { unfold receive. apply Inv_processOutputBuffer. now apply (Inv_ext c). }
  assert (armed (receive parse c output) t (StartTimeout p)) as Htr
    by (apply armed_kept_receive; [exact HI | exact Ht | discriminate]).
  pose proof (inv_pending _ HIr _ _ Htr) as Hp. cbn in Hp.
  assert (c' = resolve p JUndefined
                 (clearTimeout t (set_serverReady true (receive parse c output))))
    as Hc' by (apply (on_stdout_data_ready child _ output c Hl Hinc)).
  assert (promises c' !! p = Some (Resolved JUndefined)) as Hres
    by (rewrite Hc'; cbn; now apply settle_pending).
  assert (timers c' !! t = Some None) as Hclr.
  { rewrite Hc'. cbn. apply list_lookup_insert_eq. now apply armed_lt in Htr. }
  repeat apply conj; try assumption.
  - rewrite Hc'. reflexivity.
  - apply server_on_stdout_data.
  - intros events later. split.
    + apply (kept_run parse stringify events c'); [exact Hres | discriminate].
    + apply fire_cleared. now apply (cleared_kept_run parse stringify events c').
Qed.

(** *** A closed client *)

Lemma server_cleanup c : server (fst (cleanup c)) = None.
Proof. unfold cleanup. destruct (server c) eqn:E; [reflexivity | exact E]. Qed.

Lemma stdin_cleanup c : stdin (fst (cleanup c)) = stdin c.
Proof. unfold cleanup. now destruct (server c). Qed.

Lemma closed_step c e :
  server c = None -> e <> EvStart ->
  server (step parse stringify c e) = None /\
  stdin (step parse stringify c e) = stdin c.
Proof.
  intros Hs He.
  destruct e as [|child output|child message|t|method params|]; cbn.
  - congruence.
  - now rewrite server_on_stdout_data, stdin_on_stdout_data.
  - unfold on_error. destruct (children c !! child); auto.
  - unfold fire_timer.
    destruct (timers c !! t) as [[[p|id m p|p]|]|]; auto.
    unfold reject. cbn. now rewrite server_cleanup, stdin_cleanup.
  - rewrite (sendRequest_not_ready stringify method params c) by now right. auto.
  - now rewrite server_cleanup, stdin_cleanup.
Qed.

Lemma closed_run events : forall c,
  server c = None -> no_start events ->
  server (run parse stringify events c) = None /\
  stdin (run parse stringify events c) = stdin c.
Proof.
  induction events as [|e events IH]; intros c Hs Hns; [auto|].
  inversion Hns as [|? ? He Hrest]; subst.
  destruct (closed_step c e Hs He) as [Hs1 Hw1].
  destruct (IH _ Hs1 Hrest) as [Hs2 Hw2].
  change (run parse stringify (e :: events) c)
    with (run parse stringify events (step parse stringify c e)).
  split; [exact Hs2 | congruence].
Qed.

(** X4.  [cleanup()] can be called again: on a client without server it only
    returns a promise that is resolved already.  After [cleanup()], and until
    [start()] is called again, nothing is written to any child, whatever
    arrives (also the readiness line of the child that was killed), and every
    [sendRequest] is rejected with ["Server not ready"]. *)
Theorem closed_client (c : MCPTestClient) (events : list Event) :
  no_start events ->
  let closed := fst (cleanup c) in
  let later := run parse stringify events closed in
  cleanup closed = new_promise (Resolved JUndefined) closed /\
  server later = None /\
  stdin later = stdin c /\
  forall method params,
    sendRequest stringify method params later =
    new_promise (Rejected (lit "Server not ready")) later.
Proof.
  intros Hns closed later.
  destruct (closed_run events closed (server_cleanup c) Hns) as [Hs Hw].
  repeat apply conj.
  - apply cleanup_without_server, server_cleanup.
  - exact Hs.
  - unfold later. rewrite Hw. apply stdin_cleanup.
  - intros method params. apply sendRequest_not_ready. now right.
Qed.

(** *** The frames written *)

Lemma step_fields c e :
  (forall child, server c = Some child -> child < length (children c)) ->
  let c' := step parse stringify c e in
  length (children c) <= length (children c') /\
  (forall child, server c' = Some child -> child < length (children c')) /\
  ((stdin c' = stdin c /\ requestId c' = requestId c) \/
   (exists child method params,
       child < length (children c) /\
       requestId c' = (requestId c + 1)%Z /\
       stdin c' =
       stdin c ++
       [(child,
         stringify (request_object (requestId c + 1) method params) ++ [nl])])).
Proof.
  intros Hserver c'. unfold c'.
  destruct e as [|child output|child message|t|method params|]; cbn.
  - rewrite length_app. cbn. repeat split; [lia | | now left].
    intros child [= <-]. lia.
  - rewrite children_on_stdout_data, server_on_stdout_data,
      stdin_on_stdout_data, requestId_on_stdout_data.
    repeat split; auto.
  - unfold on_error. destruct (children c !! child); cbn; repeat split; auto.
  - unfold fire_timer.
    destruct (timers c !! t) as [[[p|id m p|p]|]|]; cbn; repeat split; auto.
    + unfold cleanup. destruct (server (clearTimeout t c)); cbn; lia.
    + rewrite server_cleanup. discriminate.
    + left. unfold cleanup. destruct (server (clearTimeout t c)); cbn; auto.
  - destruct (serverReady c) eqn:Hr; [destruct (server c) as [child|] eqn:Hs|].
    + rewrite (sendRequest_ready stringify method params c child Hr Hs). cbn.
      split; [lia|]. split.
      * intros child0 E. apply Hserver. congruence.
      * right. exists child, method, params.
        split; [now apply Hserver|]. split; reflexivity.
    + rewrite sendRequest_not_ready by now right. cbn. repeat split; auto.
      intros child. rewrite Hs. discriminate.
    + rewrite sendRequest_not_ready by now left. cbn. repeat split; auto.
  - split; [|split].
    + unfold cleanup. destruct (server c); cbn; lia.
    + rewrite server_cleanup. discriminate.
    + left. unfold cleanup. destruct (server c); cbn; auto.
Qed.

(** X8.  In every state the client can reach, what was written to the
    children is, in order, the requests with the identifiers 1, 2, 3, ...:
    one frame for each identifier allocated, each to a child that was
    spawned and each followed by its terminator; [requestId] counts them. *)
Theorem written_requests_in_order (c : MCPTestClient) :
  reachable parse stringify c ->
  Z.of_nat (length (stdin c)) = requestId c /\
  (forall child, server c = Some child -> child < length (children c)) /\
  forall i entry,
    stdin c !! i = Some entry ->
    written_frame stringify (length (children c)) i entry.
Proof.
  intros [events ->].
  induction events as [|e events IH] using rev_ind.
  - cbn. repeat split; discriminate.
  - rewrite run_snoc. destruct IH as (Hlen & Hserver & Hwritten).
    destruct (step_fields (run parse stringify events new_client) e Hserver)
      as (Hgrow & Hserver' & [[Hin Hid]|(child & method & params & Hc & Hid & Hin)]).
    + repeat split; [congruence | exact Hserver' | |].
      * rewrite Hin in H. destruct (Hwritten i entry H) as [Hlt _]. lia.
      * rewrite Hin in H. now destruct (Hwritten i entry H) as [_ Hex].
    + split; [|split; [exact Hserver'|]].
      * rewrite Hin, length_app, Hid. cbn. lia.
      * intros i entry H. rewrite Hin in H.
        apply lookup_snoc_Some in H as [[Hlt H]|[-> <-]].
        -- destruct (Hwritten i entry H) as [Hlt' Hex]. split; [lia | exact Hex].
        -- split; [cbn; lia|]. exists method, params. cbn.
           now rewrite Hlen.
Qed.

End ClientLifecycle.

(** *** White space around a frame *)

Lemma trimStart_snoc_white s w :
  is_white w = true ->
  trimStart (s ++ [w]) =
  match trimStart s with
  | [] => []
  | x => x ++ [w]
  end.
Proof.
  intros Hw. induction s as [|c s IH]; cbn.
  - now rewrite Hw.
  - destruct (is_white c); [exact IH | reflexivity].
Qed.

Lemma trimEnd_snoc_white s w : is_white w = true -> trimEnd (s ++ [w]) = trimEnd s.
Proof.
  intros Hw. unfold trimEnd. rewrite rev_app_distr. cbn. now rewrite Hw.
Qed.

Lemma trim_snoc_white s w : is_white w = true -> trim (s ++ [w]) = trim s.
Proof.
  intros Hw. unfold trim. rewrite (trimStart_snoc_white s w Hw).
  destruct (trimStart s) as [|x xs]; [reflexivity|].
  now apply trimEnd_snoc_white.
Qed.

Lemma trim_cons_white s w : is_white w = true -> trim (w :: s) = trim s.
Proof. intros Hw. unfold trim. cbn. now rewrite Hw. Qed.

(** X18.  White space before or after a line does not count: a line is
    decoded as the same line without it.  So a frame that ends with a
    carriage return and the line terminator is accepted like one that ends
    with the line terminator alone. *)
Theorem decode_ignores_white_space
    (parse : jsstring -> option JSValue) (before after raw : jsstring) :
  forallb is_white before = true ->
  forallb is_white after = true ->
  decode parse (before ++ raw ++ after) = decode parse raw /\
  decode parse (raw ++ [13%N]) = decode parse raw.
Proof.
  intros Hb Ha.
  assert (forall s, trim (s ++ after) = trim s) as Hafter.
  { induction after as [|w ws IH] using rev_ind; intros s; [now rewrite app_nil_r|].
    rewrite forallb_app in Ha. cbn in Ha.
    apply andb_true_iff in Ha as [Ha Hw]. rewrite andb_true_r in Hw.
    rewrite app_assoc, (trim_snoc_white _ w Hw). now apply IH. }
  assert (trim (before ++ raw ++ after) = trim raw) as E.
  { rewrite app_assoc, Hafter. clear Hafter Ha.
    induction before as [|w ws IH]; [reflexivity|].
    cbn in Hb. apply andb_true_iff in Hb as [Hw Hb].
    rewrite <- app_comm_cons, (trim_cons_white _ w Hw). now apply IH. }
  unfold decode. rewrite E. split; [reflexivity|].
  now rewrite (trim_snoc_white raw 13%N).
Qed.

Lemma decode_ignores_white_space_witness :
  decode Sample.parse (lit "  " ++ Sample.frame 7 ++ [9%N; 13%N])
  = decode Sample.parse (Sample.frame 7) /\
  decode Sample.parse (Sample.frame 7 ++ [13%N]) = decode Sample.parse (Sample.frame 7).
Proof.
  apply (decode_ignores_white_space Sample.parse (lit "  ") [9%N; 13%N]);
    vm_compute; reflexivity.
Defined.

Lemma readiness_needs_one_chunk_witness :
  let chunks := [firstn 10 READY; skipn 10 READY ++ lit "..." ++ [nl]] in
  let c := fst (start new_client) in
  let c' :=
    fold_left (fun c chunk => on_stdout_data Sample.parse 0 chunk c) chunks c in
  includes READY (List.concat chunks) = true /\
  c' = fold_left (receive Sample.parse) chunks c /\
  serverReady c' = serverReady c.
Proof.
  split; [vm_compute; reflexivity|].
  apply (readiness_needs_one_chunk Sample.parse (fst (start new_client)) 0
           {| l_timeout := 0; l_promise := 0 |}).
  - vm_compute. reflexivity.
  - repeat constructor.
Defined.

Lemma start_resolves_on_readiness_witness :
  let c := fst (start new_client) in
  let c' := on_stdout_data Sample.parse 0 (READY ++ lit "..." ++ [nl]) c in
  promises c' !! 0 = Some (Resolved JUndefined) /\
  serverReady c' = true /\
  server c' = server c /\
  timers c' !! 0 = Some None /\
  forall events,
    let later := run Sample.parse Sample.stringify events c' in
    promises later !! 0 = Some (Resolved JUndefined) /\
    fire_timer 0 later = later.
Proof.
  apply (start_resolves_on_readiness Sample.parse Sample.stringify
           (fst (start new_client)) 0 0 0).
  - exists [EvStart]. reflexivity.
  - vm_compute. reflexivity.
  - vm_compute. reflexivity.
  - vm_compute. reflexivity.
Defined.

Lemma closed_client_witness :
  let events := [EvData 0 (READY ++ [nl]); EvSendRequest (lit "tools/list") JUndefined;
                 EvTimer 1; EvCleanup] in
  let closed := fst (cleanup Sample.busy_client) in
  let later := run Sample.parse Sample.stringify events closed in
  cleanup closed = new_promise (Resolved JUndefined) closed /\
  server later = None /\
  stdin later = stdin Sample.busy_client /\
  forall method params,
    sendRequest Sample.stringify method params later =
    new_promise (Rejected (lit "Server not ready")) later.
Proof.
  apply (closed_client Sample.parse Sample.stringify Sample.busy_client).
  repeat constructor; discriminate.
Defined.

Lemma written_requests_in_order_witness :
  Z.of_nat (length (stdin Sample.busy_client)) = requestId Sample.busy_client /\
  (forall child, server Sample.busy_client = Some child ->
                 child < length (children Sample.busy_client)) /\
  forall i entry,
    stdin Sample.busy_client !! i = Some entry ->
    written_frame Sample.stringify (length (children Sample.busy_client)) i entry.
Proof.
  apply (written_requests_in_order Sample.parse Sample.stringify).
  exists Sample.two_calls. reflexivity.
Defined.

(** * Further properties of the servers *)

Lemma js_or_truthy a b : truthy b = true -> truthy (js_or a b) = true.
Proof. intros Hb. unfold js_or. now destruct (truthy a) eqn:Ha. Qed.

Lemma startsWith_app p s : startsWith p (p ++ s) = true.
Proof. induction p as [|a p IH]; [reflexivity|]. cbn. now rewrite N.eqb_refl. Qed.

Lemma includes_startsWith sub s : startsWith sub s = true -> includes sub s = true.
Proof. intros H. destruct s; cbn; now rewrite H. Qed.

Section DispatcherExtras.

Variable K8S_NAMESPACE : option jsstring.
Variable k8sApi_listNamespacedPod : JSValue -> Completion JSValue.
Variable k8sApi_readNamespacedPod : JSValue -> JSValue -> Completion JSValue.
Variable k8sApi_listNode : Completion JSValue.
Variable pods_of pod_of nodes_of : JSValue -> Completion JSValue.
Variable JSON_stringify_indented : JSValue -> jsstring.
Variable ToString : JSValue -> jsstring.

Let call_tool : CallToolRequest -> Run CallToolResult :=
  tools_call K8S_NAMESPACE k8sApi_listNamespacedPod k8sApi_readNamespacedPod
    k8sApi_listNode pods_of pod_of nodes_of JSON_stringify_indented ToString.

Let handler_for : jsstring -> option (JSValue -> Run JSValue) :=
  tool_handler K8S_NAMESPACE k8sApi_listNamespacedPod k8sApi_readNamespacedPod
    k8sApi_listNode pods_of pod_of nodes_of ToString.

Let descriptors : list ToolDescriptor := tools_list K8S_NAMESPACE.

Let list_pods : JSValue -> Run JSValue :=
  listPodsHandler K8S_NAMESPACE k8sApi_listNamespacedPod pods_of.

Let get_pod : JSValue -> Run JSValue :=
  getPodHandler K8S_NAMESPACE k8sApi_readNamespacedPod pod_of ToString.

Let list_nodes : Run JSValue := listNodesHandler k8sApi_listNode nodes_of.

Let default : JSValue := JStr (namespace_default K8S_NAMESPACE).

Lemma handler_for_cases name handler :
  handler_for name = Some handler ->
  handler = list_pods \/ handler = get_pod \/ handler = (fun _ => list_nodes).
Proof.
  unfold handler_for, tool_handler.
  repeat case_bool_decide; intros Hsome; try discriminate;
    injection Hsome as <-; auto.
Qed.

Lemma tools_call_selected name args handler :
  handler_for name = Some handler ->
  call_tool (request_for name args) =
  try_catch
    (let* result := handler (js_or args (JObj [])) in
     ret (text_result (JSON_stringify_indented result)))
    (fun error => ret (error_result (lit "Error: " ++ message error))).
Proof. apply tools_call_handler. Qed.

Lemma tools_call_effects name args handler :
  handler_for name = Some handler ->
  fst (call_tool (request_for name args)) = fst (handler (js_or args (JObj []))).
Proof.
  intros Hh. rewrite (tools_call_selected name args handler Hh).
  destruct (handler _) as [log [value|e]]; cbn; now rewrite app_nil_r.
Qed.

(** X10.  For a registered tool, the result is flagged with [isError]
    exactly when the handler threw.  When the handler returns a value, the
    result holds the text [JSON.stringify] makes of it and is not flagged.
    The handler of ["tools/call"] adds no effect of its own. *)
Theorem flagged_iff_handler_threw
    (name : jsstring) (args : JSValue) (handler : JSValue -> Run JSValue) :
  handler_for name = Some handler ->
  let ran := handler (js_or args (JObj [])) in
  let answer := call_tool (request_for name args) in
  fst answer = fst ran /\
  (forall value,
      snd ran = Return value ->
      snd answer = Return (text_result (JSON_stringify_indented value))) /\
  exists result,
    snd answer = Return result /\
    (isError result = true <-> exists e, snd ran = Throw e).
Proof.
  intros Hh ran answer. unfold answer.
  rewrite (tools_call_selected name args handler Hh).
  fold ran. destruct ran as [log [value|e]]; cbn; rewrite app_nil_r.
  - repeat split; try (intros ? [= <-]; reflexivity).
    eexists. split; [reflexivity|]. cbn. split; [discriminate | intros [e He]; discriminate].
  - repeat split; try discriminate.
    eexists. split; [reflexivity|]. cbn. split; eauto.
Qed.

Lemma listPodsHandler_run input :
  list_pods input =
  ([HandlerCalled "listPodsHandler" input;
    ListNamespacedPod (js_or (get "namespace" input) default)],
   match k8sApi_listNamespacedPod (js_or (get "namespace" input) default) with
   | Return response =>
       match pods_of response with
       | Return pods => Return (JObj [(lit "pods", pods)])
       | Throw e =>
           Throw (new_Error (lit "Failed to list pods: " ++ message e))
       end
   | Throw e => Throw (new_Error (lit "Failed to list pods: " ++ message e))
   end).
Proof.
  unfold list_pods, listPodsHandler, default. cbn.
  destruct (k8sApi_listNamespacedPod _) as [response|e]; cbn;
    [destruct (pods_of response); cbn|]; reflexivity.
Qed.

Lemma listNodesHandler_run :
  list_nodes =
  ([HandlerCalled "listNodesHandler" JUndefined; ListNode],
   match k8sApi_listNode with
   | Return response =>
       match nodes_of response with
       | Return nodes => Return (JObj [(lit "nodes", nodes)])
       | Throw e =>
           Throw (new_Error (lit "Failed to list nodes: " ++ message e))
       end
   | Throw e => Throw (new_Error (lit "Failed to list nodes: " ++ message e))
   end).
Proof.
  unfold list_nodes, listNodesHandler. cbn.
  destruct k8sApi_listNode as [response|e]; cbn;
    [destruct (nodes_of response); cbn|]; reflexivity.
Qed.

Lemma getPodHandler_run input :
  get_pod input =
  if truthy (get "name" input) then
    ([HandlerCalled "getPodHandler" input;
      ReadNamespacedPod (get "name" input)
        (js_or (get "namespace" input) default)],
     let not_found e :=
       if bool_decide (statusCode e = Some 404%Z)
       then Throw (new_Error
                     (lit "Pod '" ++ ToString (get "name" input)
                      ++ lit "' not found in namespace '"
                      ++ ToString (js_or (get "namespace" input) default)
                      ++ lit "'"))
       else Throw (new_Error (lit "Failed to get pod: " ++ message e)) in
     match k8sApi_readNamespacedPod (get "name" input)
             (js_or (get "namespace" input) default) with
     | Return response =>
         match pod_of response with
         | Return pod => Return (JObj [(lit "pod", pod)])
         | Throw e => not_found e
         end
     | Throw e => not_found e
     end)
  else
    ([HandlerCalled "getPodHandler" input],
     Throw (new_Error (lit "Pod name is required"))).
Proof.
  unfold get_pod, getPodHandler, default.
  destruct (truthy (get "name" input)); cbn; [|reflexivity].
  destruct (k8sApi_readNamespacedPod _ _) as [response|e]; cbn;
    [destruct (pod_of response) as [pod|e]; cbn|];
    try reflexivity;
    destruct (bool_decide (statusCode e = Some 404%Z)); reflexivity.
Qed.

(** X11.  Arguments that are declared but not used.  ["list-nodes"] does not
    look at its arguments at all, and ["list-pods"] looks at [namespace]
    only: the [labelSelector] that ["tools/list"] declares for both changes
    neither the cluster call nor the answer. *)
Theorem label_selector_is_ignored
    (args args' : JSValue) (fields : list (jsstring * JSValue))
    (selector : JSValue) :
  call_tool (request_for (lit "list-nodes") args) =
    call_tool (request_for (lit "list-nodes") args') /\
  (get "namespace" args = get "namespace" args' ->
   snd (list_pods args) = snd (list_pods args') /\
   List.filter is_cluster_call (fst (list_pods args)) =
     List.filter is_cluster_call (fst (list_pods args'))) /\
  snd (list_pods (JObj ((lit "labelSelector", selector) :: fields))) =
    snd (list_pods (JObj fields)) /\
  In {| prop_name := "labelSelector"; prop_default := None |}
     (List.concat (List.map tool_properties descriptors)).
Proof.
  repeat apply conj.
  - unfold call_tool, tools_call. cbn.
    rewrite (lit_neq "list-nodes" "list-pods") by (vm_compute; discriminate).
    rewrite (lit_neq "list-nodes" "get-pod") by (vm_compute; discriminate).
    reflexivity.
  - intros E. rewrite !listPodsHandler_run. cbn. now rewrite E.
  - rewrite !listPodsHandler_run. cbn.
    replace (assoc (lit "namespace") ((lit "labelSelector", selector) :: fields))
      with (assoc (lit "namespace") fields); [reflexivity|].
    cbn. rewrite bool_decide_eq_false_2; [reflexivity|].
    vm_compute. discriminate.
  - unfold descriptors, tools_list. cbn. right. now left.
Qed.

(** X12.  What ["get-pod"] answers when the cluster call fails: for an error
    whose response has status 404, that the pod was not found in the
    namespace; for any other error, ["Failed to get pod: <message>"]; in
    both cases in a flagged result with the prefix ["Error: "]. *)
Theorem get_pod_failure_text (args : JSValue) (e : ErrorObject) :
  let input := js_or args (JObj []) in
  let name := get "name" input in
  let namespace := js_or (get "namespace" input) default in
  truthy name = true ->
  k8sApi_readNamespacedPod name namespace = Throw e ->
  snd (call_tool (request_for (lit "get-pod") args)) =
  Return
    (error_result
       (lit "Error: " ++
        if bool_decide (statusCode e = Some 404%Z)
        then lit "Pod '" ++ ToString name ++ lit "' not found in namespace '"
             ++ ToString namespace ++ lit "'"
        else lit "Failed to get pod: " ++ message e)).
Proof.
  intros input name namespace Hname Hthrow.
  rewrite (tools_call_selected (lit "get-pod") args get_pod
             (handler_for_get_pod K8S_NAMESPACE k8sApi_listNamespacedPod
                k8sApi_readNamespacedPod k8sApi_listNode pods_of pod_of
                nodes_of ToString)).
  rewrite getPodHandler_run. fold input. fold name. rewrite Hname.
  fold namespace. rewrite Hthrow. cbv beta zeta.
  destruct (bool_decide (statusCode e = Some 404%Z)); reflexivity.
Qed.

(** X13.  One dispatch makes at most one cluster call, and never one with an
    empty value: a pod is read only under a truthy name, and the namespace
    given to the cluster is always truthy. *)
Theorem cluster_calls_are_guarded (request : CallToolRequest) :
  let effects := fst (call_tool request) in
  length (List.filter is_cluster_call effects) <= 1 /\
  (forall name namespace,
      In (ReadNamespacedPod name namespace) effects ->
      truthy name = true /\ truthy namespace = true) /\
  (forall namespace,
      In (ListNamespacedPod namespace) effects -> truthy namespace = true).
Proof.
  intros effects.
  assert (truthy default = true) as Hdefault.
  { unfold default, namespace_default, config_kubernetes_namespace.
    destruct K8S_NAMESPACE as [[|c s]|]; reflexivity. }
  destruct request as [[[name args]|]];
    [|cbn; split; [lia | split; [intros ? ? [] | intros ? []]]].
  change {| params := Some {| name := name; arguments := args |} |}
    with (request_for name args) in effects.
  destruct (handler_for name) as [handler|] eqn:Hh.
  - unfold effects. rewrite (tools_call_effects name args handler Hh).
    destruct (handler_for_cases name handler Hh) as [-> | [-> | ->]].
    + rewrite listPodsHandler_run. cbn. split; [lia|]. split.
      * intros n ns [H|[H|[]]]; discriminate.
      * intros ns [H|[H|[]]]; [discriminate|].
        injection H as <-. now apply js_or_truthy.
    + rewrite getPodHandler_run.
      destruct (truthy (get "name" (js_or args (JObj [])))) eqn:Hname; cbn.
      * split; [lia|]. split.
        -- intros n ns [H|[H|[]]]; [discriminate|].
           injection H as <- <-. split; [exact Hname | now apply js_or_truthy].
        -- intros ns [H|[H|[]]]; discriminate.
      * split; [lia|]. split.
        -- intros n ns [H|[]]; discriminate.
        -- intros ns [H|[]]; discriminate.
    + rewrite listNodesHandler_run. cbn. split; [lia|]. split.
      * intros n ns [H|[H|[]]]; discriminate.
      * intros ns [H|[H|[]]]; discriminate.
  - unfold effects, call_tool.
    rewrite (tools_call_unknown K8S_NAMESPACE k8sApi_listNamespacedPod
               k8sApi_readNamespacedPod k8sApi_listNode pods_of pod_of nodes_of
               JSON_stringify_indented ToString name args Hh).
    cbn. split; [lia | split; [intros ? ? [] | intros ? []]].
Qed.

(** X14.  ["tools/list"] and ["tools/call"] agree: a name is described by
    the one exactly when the other has a handler for it.  The described
    names are distinct, each required field is a declared property, and
    every declared default is the configured namespace. *)
Theorem tools_list_matches_dispatch :
  (forall name,
      is_Some (handler_for name) <->
      In name (List.map (fun d => lit (tool_name d)) descriptors)) /\
  List.NoDup (List.map tool_name descriptors) /\
  Forall (fun d =>
            forall field, In field (tool_required d) ->
                          In field (List.map prop_name (tool_properties d)))
         descriptors /\
  Forall (fun property =>
            forall value, prop_default property = Some value ->
                          value = namespace_default K8S_NAMESPACE)
         (List.concat (List.map tool_properties descriptors)).
Proof.
  repeat apply conj.
  - apply handler_for_registered.
  - unfold descriptors, tools_list. cbn.
    repeat constructor; cbn; intuition discriminate.
  - unfold descriptors, tools_list.
    repeat (apply List.Forall_cons; [cbn; intros field H; tauto|]).
    apply List.Forall_nil.
  - unfold descriptors, tools_list. cbn.
    repeat (apply List.Forall_cons; [cbn; congruence|]).
    apply List.Forall_nil.
Qed.

(** X15.  The answer of ["tools/call"] to a name without handler passes the
    check that the integration test makes on the answer to ["invalid-tool"]:
    it comes as a result whose text holds ["Error"]. *)
Theorem unknown_tool_passes_test (name : jsstring) (args : JSValue) :
  handler_for name = None ->
  accepts_invalid_tool (respond (snd (call_tool (request_for name args)))) = true.
Proof.
  intros Hnone. unfold call_tool.
  rewrite (tools_call_unknown K8S_NAMESPACE k8sApi_listNamespacedPod
             k8sApi_readNamespacedPod k8sApi_listNode pods_of pod_of nodes_of
             JSON_stringify_indented ToString name args Hnone).
  cbn. apply orb_true_iff. left.
  apply includes_startsWith.
  change (lit "Error: ") with (lit "Error" ++ lit ": ").
  rewrite <- app_assoc. apply startsWith_app.
Qed.

(** X16.  The callbacks of the second server never throw: each returns a
    result, flagged with [isError] exactly when the cluster call, or the
    mapping of its answer, threw; and each makes one cluster call. *)
Theorem second_server_callbacks_return (name namespace selector : JSValue) :
  let pods := list_pods_tool k8sApi_listNamespacedPod pods_of
                JSON_stringify_indented namespace in
  let pod := get_pod_tool k8sApi_readNamespacedPod pod_of
               JSON_stringify_indented ToString name namespace in
  let nodes := list_nodes_tool k8sApi_listNode nodes_of
                 JSON_stringify_indented selector in
  (exists result,
      snd pods = Return result /\
      (isError result = true <->
       exists e, bind (lift (k8sApi_listNamespacedPod namespace))
                   (fun r => lift (pods_of r)) = ([], Throw e))) /\
  (exists result,
      snd pod = Return result /\
      (isError result = true <->
       exists e, bind (lift (k8sApi_readNamespacedPod name namespace))
                   (fun r => lift (pod_of r)) = ([], Throw e))) /\
  (exists result,
      snd nodes = Return result /\
      (isError result = true <->
       exists e, bind (lift k8sApi_listNode)
                   (fun r => lift (nodes_of r)) = ([], Throw e))) /\
  List.filter is_cluster_call (fst pods) = [ListNamespacedPod namespace] /\
  List.filter is_cluster_call (fst pod) = [ReadNamespacedPod name namespace] /\
  List.filter is_cluster_call (fst nodes) = [ListNode].
Proof.
  intros pods pod nodes. unfold pods, pod, nodes.
  unfold list_pods_tool, get_pod_tool, list_nodes_tool. cbn.
  repeat apply conj.
  - destruct (k8sApi_listNamespacedPod namespace) as [r|e]; cbn;
      [destruct (pods_of r) as [v|e]; cbn|];
      eexists; (split; [reflexivity|]); cbn;
      split; eauto; try discriminate; intros [? ?]; discriminate.
  - destruct (k8sApi_readNamespacedPod name namespace) as [r|e]; cbn;
      [destruct (pod_of r) as [v|e]; cbn|];
      try destruct (bool_decide (statusCode e = Some 404%Z)); cbn;
      eexists; (split; [reflexivity|]); cbn;
      split; eauto; try discriminate; intros [? ?]; discriminate.
  - destruct k8sApi_listNode as [r|e]; cbn;
      [destruct (nodes_of r) as [v|e]; cbn|];
      eexists; (split; [reflexivity|]); cbn;
      split; eauto; try discriminate; intros [? ?]; discriminate.
  - destruct (k8sApi_listNamespacedPod namespace) as [r|e]; cbn;
      [destruct (pods_of r) as [v|e]; cbn|]; reflexivity.
  - destruct (k8sApi_readNamespacedPod name namespace) as [r|e]; cbn;
      [destruct (pod_of r) as [v|e]; cbn|];
      try destruct (bool_decide (statusCode e = Some 404%Z)); reflexivity.
  - destruct k8sApi_listNode as [r|e]; cbn;
      [destruct (nodes_of r) as [v|e]; cbn|]; reflexivity.
Qed.

End DispatcherExtras.

(** * The output of [main] and the client that waits for it *)

Lemma trimStart_snoc_nonwhite s ch :
  is_white ch = false -> exists kept, trimStart (s ++ [ch]) = kept ++ [ch].
Proof.
  intros Hch. induction s as [|c s IH]; cbn.
  - rewrite Hch. now exists [].
  - destruct (is_white c); [exact IH|]. now exists (c :: s).
Qed.

Lemma trim_head ch s :
  is_white ch = false -> exists s', trim (ch :: s) = ch :: s'.
Proof.
  intros Hch. unfold trim. cbn. rewrite Hch. unfold trimEnd. cbn.
  destruct (trimStart_snoc_nonwhite (rev s) ch Hch) as [kept ->].
  rewrite rev_app_distr. cbn. now exists (rev kept).
Qed.

(** A line whose first character is neither white space nor an opening
    brace is not decoded. *)
Lemma decode_not_brace (parse : jsstring -> option JSValue) ch s :
  is_white ch = false -> ch <> 123%N -> decode parse (ch :: s) = None.
Proof.
  intros Hch Hbrace. unfold decode.
  destruct (trim_head ch s Hch) as [s' ->].
  change (lit "{") with [123%N].
  assert (startsWith [123%N] (ch :: s') = false) as ->; [|reflexivity].
  cbn [startsWith]. apply N.eqb_neq in Hbrace.
  now rewrite N.eqb_sym, Hbrace.
Qed.

Lemma startsWith_snoc sub x : forall s,
  ~ In x sub -> startsWith sub (s ++ [x]) = startsWith sub s.
Proof.
  induction sub as [|a sub IH]; intros s Hx; [reflexivity|].
  destruct s as [|b s]; cbn.
  - assert (a <> x) as Hne by (intros ->; apply Hx; now left).
    apply N.eqb_neq in Hne. now rewrite Hne.
  - rewrite IH; [reflexivity|]. intros H. apply Hx. now right.
Qed.

Lemma includes_snoc sub x s :
  ~ In x sub -> includes sub (s ++ [x]) = includes sub s.
Proof.
  intros Hx. induction s as [|b s IH].
  - pose proof (startsWith_snoc sub x [] Hx) as E. cbn [app] in *.
    cbn [includes]. rewrite E. now destruct (startsWith sub []).
  - pose proof (startsWith_snoc sub x (b :: s) Hx) as E.
    rewrite <- app_comm_cons in *. cbn [includes]. now rewrite E, IH.
Qed.

Section Startup.

Variable parse : jsstring -> option JSValue.

Lemma receive_log_line c line :
  outputBuffer c = [] -> newline_free line -> decode parse line = None ->
  receive parse c (line ++ [nl]) = c.
Proof.
  intros Hbuf Hline Hdecode. rewrite receive_lines, Hbuf. cbn [app].
  destruct (complete_lines_frame line [] Hline) as [-> ->].
  cbn. unfold process_line. rewrite Hdecode.
  rewrite <- Hbuf. apply set_outputBuffer_same.
Qed.

Lemma on_stdout_data_log_line child l c line :
  children c !! child = Some l ->
  outputBuffer c = [] -> newline_free line -> decode parse line = None ->
  includes READY line = false ->
  on_stdout_data parse child (line ++ [nl]) c = c.
Proof.
  intros Hl Hbuf Hline Hdecode Hready.
  rewrite (on_stdout_data_receive parse child l _ c Hl).
  rewrite includes_snoc, Hready by (vm_compute; intuition discriminate).
  now apply receive_log_line.
Qed.

(** X17.  What [main] of the server prints, received by a client that has
    started it, one chunk for each line printed.  No line is taken for a
    protocol message and nothing stays in the buffer.  When [main] got as
    far as its last line, the client is ready, its startup timer is cleared
    and the promise of [start] is resolved; when [main] stopped before (the
    cluster client or the connection failed), the client is as it was, so
    its startup timer is left to fire.  The name and the version of the
    configuration must hold no line terminator, and the greeting must not
    hold the readiness line. *)
Theorem startup_output_makes_ready
    (c : MCPTestClient) (child : nat) (l : Listener)
    (name version : jsstring) (initialized connected : bool) :
  children c !! child = Some l ->
  outputBuffer c = [] ->
  newline_free name -> newline_free version ->
  includes READY (lit "Starting " ++ name ++ lit " v" ++ version) = false ->
  fold_left (fun c chunk => on_stdout_data parse child chunk c)
    (List.map (fun line => line ++ [nl])
       (main_stdout name version initialized connected))
    c =
  if initialized && connected
  then resolve (l_promise l) JUndefined
         (clearTimeout (l_timeout l) (set_serverReady true c))
  else c.
Proof.
  intros Hl Hbuf Hname Hversion Hgreeting.
  assert (newline_free (lit "Starting " ++ name ++ lit " v" ++ version)) as Hline.
  { unfold newline_free. rewrite !Forall_app. repeat split; try assumption;
      repeat constructor; vm_compute; discriminate. }
  assert (on_stdout_data parse child
            ((lit "Starting " ++ name ++ lit " v" ++ version) ++ [nl]) c = c)
    as Hfirst.
  { apply (on_stdout_data_log_line child l); try assumption.
    apply decode_not_brace; [reflexivity | discriminate]. }
  assert (on_stdout_data parse child
            (([10003%N] ++ lit " Kubernetes client initialized") ++ [nl]) c = c)
    as Hsecond.
  { apply (on_stdout_data_log_line child l); try assumption.
    - repeat constructor; vm_compute; discriminate.
    - apply decode_not_brace; [reflexivity | discriminate].
    - vm_compute. reflexivity. }
  assert (on_stdout_data parse child
            (([10003%N] ++ lit " MCP server started and connected via stdio")
               ++ [nl]) c = c)
    as Hthird.
  { apply (on_stdout_data_log_line child l); try assumption.
    - repeat constructor; vm_compute; discriminate.
    - apply decode_not_brace; [reflexivity | discriminate].
    - vm_compute. reflexivity. }
  unfold main_stdout.
  destruct initialized; cbn [List.map fold_left andb]; rewrite Hfirst;
    [|reflexivity].
  destruct connected; cbn [List.map fold_left]; rewrite Hsecond; [|reflexivity].
  rewrite Hthird.
  rewrite (on_stdout_data_ready parse child l _ c Hl)
    by (vm_compute; reflexivity).
  rewrite receive_log_line; [reflexivity | exact Hbuf | |].
  - repeat constructor; vm_compute; discriminate.
  - apply decode_not_brace; [reflexivity | discriminate].
Qed.

End Startup.

Lemma startup_output_makes_ready_witness :
  let c := fst (start new_client) in
  fold_left (fun c chunk => on_stdout_data Sample.parse 0 chunk c)
    (List.map (fun line => line ++ [nl])
       (main_stdout (config_name None) (config_version None) true true))
    c =
  resolve 0 JUndefined (clearTimeout 0 (set_serverReady true c)).
Proof.
  apply (startup_output_makes_ready Sample.parse (fst (start new_client)) 0
           {| l_timeout := 0; l_promise := 0 |}
           (config_name None) (config_version None) true true).
  - vm_compute. reflexivity.
  - vm_compute. reflexivity.
  - repeat constructor; vm_compute; discriminate.
  - repeat constructor; vm_compute; discriminate.
  - vm_compute. reflexivity.
Defined.

(** * Calls do not disturb each other *)

Section Independence.

Variable parse : jsstring -> option JSValue.
Variable stringify : JSValue -> jsstring.

(** X5.  What happens to one call leaves the others alone: while a call is
    outstanding, a response that bears another identifier, and the timeout
    of another call, leave its handler in the table and its promise
    pending. *)
Theorem calls_are_independent (c : MCPTestClient) (k : Z) (p : nat) :
  reachable parse stringify c ->
  awaiting c k p ->
  (forall response,
      number_key (get "id" response) <> Some k ->
      awaiting (dispatch c response) k p) /\
  (forall t id method p',
      armed c t (RequestTimeout id method p') -> id <> k ->
      awaiting (fire_timer t c) k p).
Proof.
  intros Hreach Haw.
  pose proof (Inv_reachable parse stringify c Hreach) as HI.
  split.
  - intros response Hother. now apply awaiting_dispatch_other.
  - intros t id method p' Ht Hne.
    destruct Haw as (Hk & [tk Hh] & Hp).
    destruct (inv_handler c HI k _ Hh) as [m Hm]. cbn in Hm.
    rewrite (fire_request_timer c t id method p' Ht).
    split; [exact Hk|]. split.
    + exists tk. cbn. rewrite lookup_delete_ne by congruence. exact Hh.
    + cbn. rewrite settle_lookup_ne; [exact Hp|].
      intros ->.
      assert (t = tk) as ->
        by (eapply (inv_unique c HI); [exact Ht | exact Hm | reflexivity]).
      unfold armed in *. congruence.
Qed.

End Independence.

Lemma calls_are_independent_witness :
  awaiting (fire_timer 1 Sample.busy_client) 2%Z 2.
Proof.
  refine (proj2 (calls_are_independent Sample.parse Sample.stringify
                   Sample.busy_client 2%Z 2 _ _)
            1 1%Z (lit "tools/list") 1 _ _).
  - exists Sample.two_calls. reflexivity.
  - vm_compute. repeat split; [discriminate | now eexists].
  - vm_compute. reflexivity.
  - discriminate.
Defined.

(** The further properties of the server on the sample cluster. *)

Lemma flagged_iff_handler_threw_witness :
  fst (Sample.tools_call (Sample.call "list-nodes" JNull)) =
  fst (listNodesHandler Sample.listNode Sample.view).
Proof.
  refine (proj1 (flagged_iff_handler_threw None Sample.listNamespacedPod
                   Sample.readNamespacedPod Sample.listNode
                   Sample.view Sample.view Sample.view Sample.show Sample.show
                   (lit "list-nodes") JNull
                   (fun _ => listNodesHandler Sample.listNode Sample.view) _)).
  vm_compute. reflexivity.
Defined.

Lemma get_pod_failure_text_witness :
  snd (Sample.tools_call
         (Sample.call "get-pod" (JObj [(lit "name", JStr (lit "web"))]))) =
  Return
    (error_result
       (lit "Error: " ++ lit "Failed to get pod: " ++ lit "connection refused")).
Proof.
  refine (get_pod_failure_text None Sample.listNamespacedPod
            Sample.readNamespacedPod Sample.listNode
            Sample.view Sample.view Sample.view Sample.show Sample.show
            (JObj [(lit "name", JStr (lit "web"))]) Sample.refused _ _).
  - vm_compute. reflexivity.
  - vm_compute. reflexivity.
Defined.

Lemma unknown_tool_passes_test_witness :
  accepts_invalid_tool
    (respond (snd (Sample.tools_call (Sample.call "invalid-tool" JUndefined))))
  = true.
Proof.
  refine (unknown_tool_passes_test None Sample.listNamespacedPod
            Sample.readNamespacedPod Sample.listNode
            Sample.view Sample.view Sample.view Sample.show Sample.show
            (lit "invalid-tool") JUndefined _).
  vm_compute. reflexivity.
Defined.

(** * The bytes of a chunk *)

Lemma utf8_run_app a : forall st b,
  utf8_run st (a ++ b) =
  (fst (utf8_run st a) ++ fst (utf8_run (snd (utf8_run st a)) b),
   snd (utf8_run (snd (utf8_run st a)) b)).
Proof.
  induction a as [|x a IH]; intros st b; cbn [app utf8_run].
  - cbn. now destruct (utf8_run st b).
  - destruct (utf8_step st x) as [o s]. rewrite IH.
    destruct (utf8_run s a) as [o1 s1]. cbn [fst snd].
    destruct (utf8_run s1 b) as [o2 s2]. cbn [fst snd].
    now rewrite app_assoc.
Qed.

(** Bytes that end where a character ends are decoded on their own. *)
Lemma toString_app a b :
  whole_characters a -> toString (a ++ b) = toString a ++ toString b.
Proof.
  unfold whole_characters, toString. intros H. rewrite utf8_run_app, H.
  destruct (utf8_run Utf8Idle a) as [o1 s1]. cbn in H. subst s1.
  destruct (utf8_run Utf8Idle b) as [o2 s2]. cbn [fst snd utf8_flush].
  rewrite app_nil_r, <- app_assoc, List.map_app, List.concat_app.
  reflexivity.
Qed.

Lemma toString_concat chunks :
  Forall whole_characters chunks ->
  toString (List.concat chunks) = List.concat (List.map toString chunks).
Proof.
  induction 1 as [|chunk chunks Hchunk _ IH]; [reflexivity|].
  cbn [List.concat List.map]. now rewrite toString_app, IH.
Qed.

Lemma receive_bytes_chunks parse chunks : forall c,
  fold_left (receive_bytes parse) chunks c =
  fold_left (receive parse) (List.map toString chunks) c.
Proof.
  induction chunks as [|chunk chunks IH]; intros c; [reflexivity|].
  cbn [fold_left List.map]. apply IH.
Qed.

(** C1, at the failing input.  The frame [{"id":1,"result":"é"}] answers the
    outstanding call 1.  Received in one chunk, the call is resolved with
    the message of the frame.  Received in two chunks, cut between the two
    bytes of [é], each chunk is decoded on its own by [data.toString()]:
    either half of the character becomes U+FFFD, and the call is resolved
    with a message that no frame of the stream holds. *)
Theorem character_cut_across_chunks :
  let data := TextSample.accented_bytes in
  let listener c chunk := on_stdout_bytes TextSample.parse 0 chunk c in
  let c := Sample.busy_client in
  toString data = TextSample.frame 1 [233%N] ++ [nl] /\
  promises c !! 1 = Some Pending /\
  promises (fold_left listener [data] c) !! 1 =
    Some (Resolved (TextSample.response 1 [233%N])) /\
  firstn 19 data ++ skipn 19 data = data /\
  toString (firstn 19 data) ++ toString (skipn 19 data) =
    TextSample.frame 1 [65533%N; 65533%N] ++ [nl] /\
  promises (fold_left listener [firstn 19 data; skipn 19 data] c) !! 1 =
    Some (Resolved (TextSample.response 1 [65533%N; 65533%N])).
Proof. vm_compute. repeat split. Qed.

Section ByteChunks.

Variable parse : jsstring -> option JSValue.

(** X19.  Chunks of bytes that each end where a character ends are decoded
    to the text of the whole: received in order, they have the effect of the
    whole received at once, and frames cut into such chunks reach the
    correlation step as the messages they decode to, in order, with the
    unterminated rest left in the buffer. *)
Theorem chunks_at_character_boundaries
    (frames : list jsstring) (messages : list JSValue)
    (rest : jsstring) (chunks : list (list N)) (c : MCPTestClient) :
  Forall whole_characters chunks ->
  Forall newline_free frames ->
  Forall2 (fun f m => decode parse f = Some m) frames messages ->
  newline_free rest ->
  outputBuffer c = [] ->
  toString (List.concat chunks) = frame_bytes frames ++ rest ->
  fold_left (receive_bytes parse) chunks c =
    receive_bytes parse c (List.concat chunks) /\
  fold_left (receive_bytes parse) chunks c =
    set_outputBuffer rest (fold_left dispatch messages c).
Proof.
  intros Hwhole Hframes Hdecode Hrest Hbuf Hcut.
  rewrite receive_bytes_chunks.
  assert (List.concat (List.map toString chunks) = frame_bytes frames ++ rest)
    as Hcut' by now rewrite <- toString_concat.
  rewrite (receive_frames parse frames messages rest _ c
             Hframes Hdecode Hrest Hbuf Hcut').
  split; [|reflexivity].
  unfold receive_bytes.
  change (receive parse c (toString (List.concat chunks)))
    with (fold_left (receive parse) [toString (List.concat chunks)] c).
  symmetry. apply (receive_frames parse frames messages rest _ c);
    try assumption.
  cbn [List.concat]. now rewrite app_nil_r.
Qed.

End ByteChunks.


Lemma chunks_at_character_boundaries_witness :
  let data := TextSample.accented_bytes in
  let chunks := [firstn 5 data; []; firstn 15 (skipn 5 data);
                 skipn 20 data ++ [123; 34]%N] in
  let c := Sample.busy_client in
  (fold_left (receive_bytes TextSample.parse) chunks c =
     receive_bytes TextSample.parse c (List.concat chunks) /\
   fold_left (receive_bytes TextSample.parse) chunks c =
     set_outputBuffer [123; 34]%N
       (fold_left dispatch [TextSample.response 1 [233%N]] c)) /\
  promises c !! 1 = Some Pending /\
  promises (fold_left (receive_bytes TextSample.parse) chunks c) !! 1 =
    Some (Resolved (TextSample.response 1 [233%N])).
Proof.
  intros data chunks c. split.
  - apply (chunks_at_character_boundaries TextSample.parse
             [TextSample.frame 1 [233%N]]).
    + repeat apply List.Forall_cons; try apply List.Forall_nil;
        vm_compute; reflexivity.
    + apply List.Forall_cons; [|apply List.Forall_nil].
      repeat constructor; vm_compute; discriminate.
    + apply List.Forall2_cons; [|apply List.Forall2_nil].
      vm_compute. reflexivity.
    + repeat constructor; vm_compute; discriminate.
    + vm_compute. reflexivity.
    + vm_compute. reflexivity.
  - vm_compute. split; reflexivity.
Defined.

(** * Readiness and the worker written to *)

Section Readiness.

Variable parse : jsstring -> option JSValue.
Variable stringify : JSValue -> jsstring.








End Readiness.



(** * The default of [namespace] in the two servers *)

Section Defaults.

Variable K8S_NAMESPACE : option jsstring.
Variable k8sApi_listNamespacedPod : JSValue -> Completion JSValue.
Variable k8sApi_readNamespacedPod : JSValue -> JSValue -> Completion JSValue.
Variable k8sApi_listNode : Completion JSValue.
Variable pods_of pod_of nodes_of : JSValue -> Completion JSValue.
Variable JSON_stringify_indented : JSValue -> jsstring.
Variable ToString : JSValue -> jsstring.

Lemma assoc_here key v rest : assoc key ((key, v) :: rest) = v.
Proof. cbn [assoc]. now rewrite bool_decide_eq_true_2. Qed.

Lemma assoc_next key k v rest :
  k <> key -> assoc key ((k, v) :: rest) = assoc key rest.
Proof. intros H. cbn [assoc]. now rewrite bool_decide_eq_false_2. Qed.

(** What the callback of ["list-pods"] of the second server does with the
    namespace it is given. *)
Lemma list_pods_tool_effects namespace :
  fst (list_pods_tool k8sApi_listNamespacedPod pods_of JSON_stringify_indented
         namespace) =
  [HandlerCalled "list-pods" namespace; ListNamespacedPod namespace].
Proof.
  unfold list_pods_tool. cbn.
  destruct (k8sApi_listNamespacedPod namespace) as [r|e]; cbn;
    [destruct (pods_of r) as [v|e]; cbn|]; reflexivity.
Qed.

Lemma get_pod_tool_effects name namespace :
  fst (get_pod_tool k8sApi_readNamespacedPod pod_of JSON_stringify_indented
         ToString name namespace) =
  [HandlerCalled "get-pod" name; ReadNamespacedPod name namespace].
Proof.
  unfold get_pod_tool. cbn.
  destruct (k8sApi_readNamespacedPod name namespace) as [r|e]; cbn;
    [destruct (pod_of r) as [v|e]; cbn|];
    try reflexivity;
    destruct (bool_decide (statusCode e = Some 404%Z)); reflexivity.
Qed.

(** C8, as the code has it.  The raw input is an object without
    [namespace].  In the second server, which registers its tools with
    [server.tool] and a schema that declares the default, the claim holds:
    validation puts [config.kubernetes.namespace] in the place of the
    omitted field, and the callback is entered with it and passes it to the
    cluster.  The handler of ["tools/call"] of [server.ts] has no validation
    step: it passes the input as it came, the handler is entered with
    [namespace] absent and itself takes [config.kubernetes.namespace] in its
    place.  In both servers the cluster call gets this namespace, which is
    never empty. *)
Theorem default_namespace_substitution (fields : list (jsstring * JSValue)) :
  assoc (lit "namespace") fields = JUndefined ->
  let rawInput := JObj fields in
  let default := JStr (config_kubernetes_namespace K8S_NAMESPACE) in
  let second := second_server_call K8S_NAMESPACE k8sApi_listNamespacedPod
                  k8sApi_readNamespacedPod k8sApi_listNode pods_of pod_of
                  nodes_of JSON_stringify_indented ToString in
  let first := tools_call K8S_NAMESPACE k8sApi_listNamespacedPod
                 k8sApi_readNamespacedPod k8sApi_listNode pods_of pod_of
                 nodes_of JSON_stringify_indented ToString in
  (forall selector,
      validate_field OptionalString (assoc (lit "labelSelector") fields)
        = Some selector ->
      validate (list_pods_shape K8S_NAMESPACE) rawInput =
        Some (JObj [(lit "namespace", default);
                    (lit "labelSelector", selector)]) /\
      fst (second (lit "list-pods") rawInput) =
        [HandlerCalled "list-pods" default; ListNamespacedPod default]) /\
  (forall name,
      assoc (lit "name") fields = JStr name ->
      validate (get_pod_shape K8S_NAMESPACE) rawInput =
        Some (JObj [(lit "name", JStr name); (lit "namespace", default)]) /\
      fst (second (lit "get-pod") rawInput) =
        [HandlerCalled "get-pod" (JStr name);
         ReadNamespacedPod (JStr name) default]) /\
  fst (first (request_for (lit "list-pods") rawInput)) =
    [HandlerCalled "listPodsHandler" rawInput; ListNamespacedPod default] /\
  (truthy (assoc (lit "name") fields) = true ->
   fst (first (request_for (lit "get-pod") rawInput)) =
     [HandlerCalled "getPodHandler" rawInput;
      ReadNamespacedPod (assoc (lit "name") fields) default]) /\
  get "namespace" rawInput = JUndefined /\
  truthy default = true.
Proof.
  intros Hns rawInput default second first.
  assert (truthy (get "namespace" (js_or rawInput (JObj []))) = false) as Hfalsy
    by (cbn; now rewrite Hns).
  destruct (handler_substitutes_namespace K8S_NAMESPACE
              k8sApi_listNamespacedPod k8sApi_readNamespacedPod
              k8sApi_listNode pods_of pod_of nodes_of
              JSON_stringify_indented ToString rawInput Hfalsy)
    as (Hpods & Hpod & Htruthy).
  repeat apply conj.
  - intros selector Hselector.
    assert (validate (list_pods_shape K8S_NAMESPACE) rawInput =
            Some (JObj [(lit "namespace", default);
                        (lit "labelSelector", selector)])) as Hvalid.
    { unfold validate, rawInput, list_pods_shape. cbn [validate_fields].
      rewrite Hns, Hselector. reflexivity. }
    split; [exact Hvalid|].
    unfold second, second_server_call.
    rewrite bool_decide_eq_true_2 by reflexivity.
    rewrite Hvalid. unfold get. rewrite assoc_here.
    apply list_pods_tool_effects.
  - intros name Hname.
    assert (validate (get_pod_shape K8S_NAMESPACE) rawInput =
            Some (JObj [(lit "name", JStr name); (lit "namespace", default)]))
      as Hvalid.
    { unfold validate, rawInput, get_pod_shape. cbn [validate_fields].
      rewrite Hns, Hname. reflexivity. }
    split; [exact Hvalid|].
    unfold second, second_server_call.
    rewrite (lit_neq "get-pod" "list-pods") by (vm_compute; discriminate).
    rewrite bool_decide_eq_true_2 by reflexivity.
    rewrite Hvalid. unfold get.
    rewrite assoc_here, assoc_next by (vm_compute; discriminate).
    rewrite assoc_here.
    apply get_pod_tool_effects.
  - exact Hpods.
  - exact Hpod.
  - exact Hns.
  - exact Htruthy.
Qed.

End Defaults.

Lemma default_namespace_substitution_witness :
  let second := second_server_call None Sample.listNamespacedPod
                  Sample.readNamespacedPod Sample.listNode Sample.view
                  Sample.view Sample.view Sample.show Sample.show in
  validate (list_pods_shape None) (JObj []) =
    Some (JObj [(lit "namespace", JStr (lit "default"));
                (lit "labelSelector", JUndefined)]) /\
  fst (second (lit "list-pods") (JObj [])) =
    [HandlerCalled "list-pods" (JStr (lit "default"));
     ListNamespacedPod (JStr (lit "default"))].
Proof.
  intros second.
  refine (proj1 (default_namespace_substitution None
                   Sample.listNamespacedPod
                   Sample.readNamespacedPod Sample.listNode
                   Sample.view Sample.view Sample.view Sample.show Sample.show
                   [] _) JUndefined _); reflexivity.
Defined.
